(** * Agentic-Vision chat: streaming reducer, history serializer, renderers

    A shallow embedding of the TypeScript sources
    - [components/ChatInterface.tsx] ([handleSendMessage],
      [generateHtmlFromMessages]),
    - [components/ChatMessageItem.tsx] ([renderPart]),
    - [services/gemini.ts] ([sendMessageStream]),
    with the properties the specification states about them. *)

From Stdlib Require Import ZArith Ascii String.
From stdpp Require Import base tactics option list strings.

Open Scope string_scope.
Open Scope list_scope.
Open Scope nat_scope.

(** ** JavaScript values the code inspects *)

(** [part.thought] is typed [boolean] by the client library, but both
    renderers also test [typeof part.thought === 'string'] (behind
    [@ts-ignore]); an absent field is [None]. *)
Inductive ThoughtVal :=
| ThoughtBool (b : bool)
| ThoughtStr (s : string).

(** An object the code copies by reference and never looks into
    ([functionCall], [functionResponse]). *)
Inductive Opaque := OpaqueObj (tag : nat).

Record ExecutableCode := {
  language : option string;
  code : option string
}.

Record CodeExecutionResult := {
  outcome : option string;
  output : option string
}.

Record Blob := {
  mimeType : option string;
  data : option string
}.

(** [Part] of [@google/genai]: every field optional. *)
Record Part := {
  text : option string;
  thought : option ThoughtVal;
  executableCode : option ExecutableCode;
  codeExecutionResult : option CodeExecutionResult;
  inlineData : option Blob;
  functionCall : option Opaque;
  functionResponse : option Opaque
}.

#[global] Instance ThoughtVal_eq_dec : EqDecision ThoughtVal.
Proof. solve_decision. Defined.
#[global] Instance Opaque_eq_dec : EqDecision Opaque.
Proof. solve_decision. Defined.
#[global] Instance ExecutableCode_eq_dec : EqDecision ExecutableCode.
Proof. solve_decision. Defined.
#[global] Instance CodeExecutionResult_eq_dec : EqDecision CodeExecutionResult.
Proof. solve_decision. Defined.
#[global] Instance Blob_eq_dec : EqDecision Blob.
Proof. solve_decision. Defined.
#[global] Instance Part_eq_dec : EqDecision Part.
Proof. solve_decision. Defined.

(** The empty object literal [{}]. *)
Definition emptyPart : Part :=
  {| text := None; thought := None; executableCode := None;
     codeExecutionResult := None; inlineData := None;
     functionCall := None; functionResponse := None |}.

Module JS.

(** Truthiness of a [string | undefined]: [undefined] and [""] are falsy. *)
Definition truthy_str (s : option string) : bool :=
  match s with
  | Some s => negb (String.eqb s "")
  | None => false
  end.

(** Truthiness of an object-valued optional field. *)
Definition truthy_obj {A} (o : option A) : bool :=
  match o with Some _ => true | None => false end.

(** [!!p.thought]. *)
Definition truthy_thought (t : option ThoughtVal) : bool :=
  match t with
  | Some (ThoughtBool b) => b
  | Some (ThoughtStr s) => negb (String.eqb s "")
  | None => false
  end.

(** [x !== undefined]. *)
Definition defined {A} (o : option A) : bool :=
  match o with Some _ => true | None => false end.

(** [s || ] with the empty string on a [string | undefined]. *)
Definition or_empty (s : option string) : string :=
  match s with
  | Some s => s
  | None => ""
  end.

(** [a + b] where [a] is a string and [b] a [string | undefined]:
    string concatenation prints [undefined]. *)
Definition plus (a : string) (b : option string) : string :=
  a +:+ match b with Some s => s | None => "undefined" end.

(** [a === b] on two [string | undefined]. *)
Definition strict_eq (a b : option string) : bool :=
  bool_decide (a = b).

End JS.

(** ** The streaming reducer (ChatInterface.tsx, [handleSendMessage]) *)

(** [isMergeableText(p1, p2)]. *)
Definition isMergeableText (p1 p2 : Part) : bool :=
  let p1Thought := JS.truthy_thought (thought p1) in
  let p2Thought := JS.truthy_thought (thought p2) in
  JS.defined (text p1) && JS.defined (text p2) &&
  negb (JS.truthy_obj (executableCode p1)) && negb (JS.truthy_obj (executableCode p2)) &&
  negb (JS.truthy_obj (codeExecutionResult p1)) && negb (JS.truthy_obj (codeExecutionResult p2)) &&
  negb (JS.truthy_obj (inlineData p1)) && negb (JS.truthy_obj (inlineData p2)) &&
  Bool.eqb p1Thought p2Thought.

(** [{ ...lastPart, text: t }]. *)
Definition withText (lastPart : Part) (t : string) : Part :=
  {| text := Some t; thought := thought lastPart;
     executableCode := executableCode lastPart;
     codeExecutionResult := codeExecutionResult lastPart;
     inlineData := inlineData lastPart;
     functionCall := functionCall lastPart;
     functionResponse := functionResponse lastPart |}.

(** [{ ...lastPart, executableCode: e }]. *)
Definition withExecutableCode (lastPart : Part) (e : ExecutableCode) : Part :=
  {| text := text lastPart; thought := thought lastPart;
     executableCode := Some e;
     codeExecutionResult := codeExecutionResult lastPart;
     inlineData := inlineData lastPart;
     functionCall := functionCall lastPart;
     functionResponse := functionResponse lastPart |}.

(** [{ text: newPart.text, thought: newPart.thought }]. *)
Definition textPart (t : option string) (th : option ThoughtVal) : Part :=
  {| text := t; thought := th; executableCode := None;
     codeExecutionResult := None; inlineData := None;
     functionCall := None; functionResponse := None |}.

(** [{ executableCode: { ...e } }]. *)
Definition codePart (e : ExecutableCode) : Part :=
  {| text := None; thought := None;
     executableCode := Some {| language := language e; code := code e |};
     codeExecutionResult := None; inlineData := None;
     functionCall := None; functionResponse := None |}.

(** [{ codeExecutionResult: { ...r } }]. *)
Definition resultPart (r : CodeExecutionResult) : Part :=
  {| text := None; thought := None; executableCode := None;
     codeExecutionResult := Some {| outcome := outcome r; output := output r |};
     inlineData := None; functionCall := None; functionResponse := None |}.

(** [{ inlineData: { ...b } }]. *)
Definition inlinePart (b : Blob) : Part :=
  {| text := None; thought := None; executableCode := None;
     codeExecutionResult := None;
     inlineData := Some {| mimeType := mimeType b; data := data b |};
     functionCall := None; functionResponse := None |}.

(** What one iteration of [for (const newPart of newParts)] does to
    [currentParts]. *)
Inductive Update :=
| Assign (p : Part)   (* currentParts[lastPartIndex] = p *)
| Push (p : Part)     (* currentParts.push(p) *)
| Keep.               (* no branch taken *)

(** The body of the loop, given [lastPart] (or [None] for [undefined]). *)
Definition stepUpdate (lastPart : option Part) (newPart : Part) : Update :=
  if JS.truthy_str (text newPart) then
    match lastPart with
    | Some lp =>
        if isMergeableText lp newPart then
          Assign (withText lp (JS.plus (JS.or_empty (text lp)) (text newPart)))
        else Push (textPart (text newPart) (thought newPart))
    | None => Push (textPart (text newPart) (thought newPart))
    end
  else
    match executableCode newPart with
    | Some ne =>
        match lastPart with
        | Some lp =>
            match executableCode lp with
            | Some le =>
                if JS.strict_eq (language le) (language ne) then
                  Assign (withExecutableCode lp
                            {| language := language le;
                               code := Some (JS.plus (JS.or_empty (code le)) (code ne)) |})
                else Push (codePart ne)
            | None => Push (codePart ne)
            end
        | None => Push (codePart ne)
        end
    | None =>
        match codeExecutionResult newPart with
        | Some r => Push (resultPart r)
        | None =>
            match inlineData newPart with
            | Some b => Push (inlinePart b)
            | None =>
                if JS.truthy_thought (thought newPart) then
                  Push (textPart (Some (JS.or_empty (text newPart))) (thought newPart))
                else Keep
            end
        end
    end.

(** One iteration on the array [currentParts].

    [lastPartIndex] is [currentParts.length - 1]; on the empty array the
    JavaScript index is [-1] and the read gives [undefined], as the lookup
    at [pred 0] does here. *)
Definition reduceStep (currentParts : list Part) (newPart : Part) : list Part :=
  let lastPartIndex := pred (length currentParts) in
  let lastPart := currentParts !! lastPartIndex in
  match stepUpdate lastPart newPart with
  | Assign p => <[lastPartIndex := p]> currentParts
  | Push p => currentParts ++ [p]
  | Keep => currentParts
  end.

(** The whole loop over one batch, started from the copy
    [[...lastMsg.parts]]. *)
Definition reduceParts (current incoming : list Part) : list Part :=
  fold_left reduceStep incoming current.

(** ** Messages, history and stream chunks *)

Inductive Role := user | model.

#[global] Instance Role_eq_dec : EqDecision Role.
Proof. solve_decision. Defined.

(** [ChatMessage] of [../types], as the code builds and reads it. The [id]
    is [Date.now().toString()]; printing an integer is injective, so an id
    is kept as the integer it prints and [!==] on ids is integer
    disequality. *)
Record ChatMessage := {
  msg_id : Z;
  role : Role;
  parts : list Part;
  timestamp : Z
}.

(** [Content] of [@google/genai]: one turn of the history, and the payload
    of a stream candidate. *)
Record Content := {
  content_role : option Role;
  content_parts : option (list Part)
}.

Record Candidate := {
  content : option Content
}.

(** One chunk of the response stream ([GenerateContentResponse]). *)
Record Chunk := {
  candidates : option (list Candidate)
}.

(** [chunk.candidates?.[0]?.content?.parts || []]. An array is truthy even
    when empty, so the fallback only replaces [undefined]. *)
Definition chunkParts (chunk : Chunk) : list Part :=
  match candidates chunk with
  | Some (c :: _) =>
      match content c with
      | Some ct =>
          match content_parts ct with
          | Some ps => ps
          | None => []
          end
      | None => []
      end
  | _ => []
  end.

(** *** History serialization ([handleSendMessage], "Prepare history") *)

(** The callback of [msg.parts.map]: a clean part object for the API. *)
Definition cleanPart (p : Part) : Part :=
  {| text := if JS.truthy_str (text p) then text p else None;
     thought := None;
     executableCode := executableCode p;
     codeExecutionResult := codeExecutionResult p;
     inlineData := inlineData p;
     functionCall := functionCall p;
     functionResponse := functionResponse p |}.

(** [Object.keys(p).length] of a part object whose keys are exactly its
    assigned fields. *)
Definition keyCount (p : Part) : nat :=
  (if JS.defined (text p) then 1 else 0) +
  (if JS.defined (thought p) then 1 else 0) +
  (if JS.defined (executableCode p) then 1 else 0) +
  (if JS.defined (codeExecutionResult p) then 1 else 0) +
  (if JS.defined (inlineData p) then 1 else 0) +
  (if JS.defined (functionCall p) then 1 else 0) +
  (if JS.defined (functionResponse p) then 1 else 0).

Definition hasKeys (p : Part) : bool := Nat.ltb 0 (keyCount p).

Definition cleanParts (ps : list Part) : list Part :=
  List.filter hasKeys (map cleanPart ps).

(** [{ text: s }]. *)
Definition textOnly (s : string) : Part :=
  {| text := Some s; thought := None; executableCode := None;
     codeExecutionResult := None; inlineData := None;
     functionCall := None; functionResponse := None |}.

(** [{ text: " " }]. *)
Definition spacePart : Part := textOnly " ".

Definition historyEntry (msg : ChatMessage) : Content :=
  let cp := cleanParts (parts msg) in
  {| content_role := Some (role msg);
     content_parts := Some (if Nat.ltb 0 (length cp) then cp else [spacePart]) |}.

Definition buildHistory (messages : list ChatMessage) : list Content :=
  map historyEntry messages.

(** ** The session: explicit state, exceptions, and the upstream stream *)

(** The component state ([useState]): the transcript and the flag that
    disables the input surface. [requestsSent] is not component state: it
    counts the requests made to the hosted API so far, so that the API's
    answer may depend on which request it is and a second request would
    show. *)
Record Session := {
  messages : list ChatMessage;
  isLoading : bool;
  requestsSent : nat
}.

(** How an [await] or a [for await] ends. *)
Inductive Outcome (A : Type) :=
| Returned (a : A)
| Thrown.
Arguments Returned {A} a.
Arguments Thrown {A}.

(** State passing with exceptions, for the body of an [async] function that
    calls state setters and may throw. *)
Definition Eff (A : Type) : Type := Session -> Session * Outcome A.

Definition ret {A} (a : A) : Eff A := fun s => (s, Returned a).

Definition throw {A} : Eff A := fun s => (s, Thrown).

Definition bind {A B} (m : Eff A) (k : A -> Eff B) : Eff B :=
  fun s =>
    match m s with
    | (s', Returned a) => k a s'
    | (s', Thrown) => (s', Thrown)
    end.

Declare Scope eff_scope.
Delimit Scope eff_scope with eff.
Notation "x <- m ;; k" := (bind m (fun x => k))
  (at level 100, m at next level, right associativity) : eff_scope.
Notation "m ;; k" := (bind m (fun _ => k))
  (at level 100, right associativity) : eff_scope.

(** [setMessages(updater)]. *)
Definition setMessages (updater : list ChatMessage -> list ChatMessage) : Eff unit :=
  fun s => ({| messages := updater (messages s); isLoading := isLoading s;
               requestsSent := requestsSent s |}, Returned tt).

(** [setIsLoading(b)]. *)
Definition setIsLoading (b : bool) : Eff unit :=
  fun s => ({| messages := messages s; isLoading := b;
               requestsSent := requestsSent s |}, Returned tt).

(** [try { body } catch (error) { handler } finally { final }], for a
    handler and a final block that do not throw. *)
Definition tryCatchFinally (body handler final : Eff unit) : Eff unit :=
  fun s =>
    match body s with
    | (s', Returned _) => final s'
    | (s', Thrown) => (handler ;; final)%eff s'
    end.

(** What the hosted API does with one request: the call itself rejects, or
    it yields chunks in order and then completes or aborts. *)
Inductive StreamEnd := Completed | Aborted.

Inductive Upstream :=
| Rejected
| Streaming (chunks : list Chunk) (ending : StreamEnd).

(** [for await (const chunk of stream) body(chunk)]. *)
Fixpoint forAwait (chunks : list Chunk) (ending : StreamEnd)
    (body : Chunk -> Eff unit) : Eff unit :=
  match chunks with
  | [] => match ending with Completed => ret tt | Aborted => throw end
  | chunk :: rest => (body chunk ;; forAwait rest ending body)%eff
  end.

(** The six readings of [Date.now()] one call of [handleSendMessage] can
    make, in program order. *)
Record Clock := {
  now_user_id : Z;
  now_user_timestamp : Z;
  now_model_id : Z;
  now_model_timestamp : Z;
  now_error_id : Z;
  now_error_timestamp : Z
}.

(** The updater passed to [setMessages] for one chunk, on a transcript
    that has a last message. On an empty [prev] the source reads [.id] of
    [undefined] and throws; this function returns [prev] there, and is not
    a model of the source at that input. [handleSendMessage] only runs the
    updater on a transcript that ends with the model message (see
    [forAwait_applyChunk]). *)
Definition applyChunk (modelMessageId : Z) (newParts : list Part)
    (prev : list ChatMessage) : list ChatMessage :=
  match last prev with
  | None => prev
  | Some lastMsg =>
      if negb (Z.eqb (msg_id lastMsg) modelMessageId) then prev
      else
        let currentParts := reduceParts (parts lastMsg) newParts in
        take (pred (length prev)) prev ++
          [{| msg_id := msg_id lastMsg; role := role lastMsg;
              parts := currentParts; timestamp := timestamp lastMsg |}]
  end.

Definition apology : string := "Sorry, I encountered an error. Please try again.".

Section Controller.

(** [image.match(/^data:(.+);base64,(.+)$/)]: the two captured groups,
    or [None] when the pattern does not match. *)
Variable dataUrlMatch : string -> option (string * string).

(** [chat.sendMessageStream({ message })] on a chat created with
    [history]: the hosted API, an external collaborator. Its first
    argument is the number of requests made before this one. *)
Variable chatApi : nat -> list Content -> list Part -> Upstream.

(** "Construct user message parts". *)
Definition buildUserParts (text : string) (image : option string) : list Part :=
  let userParts := if JS.truthy_str (Some text) then [textOnly text] else [] in
  let userParts :=
    if JS.truthy_str image then
      match dataUrlMatch (JS.or_empty image) with
      | Some (m1, m2) =>
          userParts ++ [inlinePart {| mimeType := Some m1; data := Some m2 |}]
      | None => userParts
      end
    else userParts in
  if Nat.eqb (length userParts) 0 then userParts ++ [spacePart] else userParts.

(** services/gemini.ts, the parts of the new turn. *)
Definition requestParts (message : string) (image : option string) : list Part :=
  let parts := if JS.truthy_str (Some message) then [textOnly message] else [] in
  let parts :=
    if JS.truthy_str image then
      match dataUrlMatch (JS.or_empty image) with
      | Some (m1, m2) =>
          let mimeType :=
            if String.eqb m1 "application/octet-stream" then "image/jpeg" else m1 in
          parts ++ [inlinePart {| mimeType := Some mimeType; data := Some m2 |}]
      | None => parts
      end
    else parts in
  if Nat.eqb (length parts) 0 then parts ++ [spacePart] else parts.

(** One request to the hosted API. *)
Definition callApi (history : list Content) (message : list Part) : Eff Upstream :=
  fun s => ({| messages := messages s; isLoading := isLoading s;
               requestsSent := S (requestsSent s) |},
            Returned (chatApi (requestsSent s) history message)).

(** services/gemini.ts, [sendMessageStream]: the awaited call throws when
    the API rejects it, else returns the stream. *)
Definition sendMessageStream (message : string) (history : list Content)
    (image : option string) : Eff (list Chunk * StreamEnd) :=
  (result <- callApi history (requestParts message image) ;;
   match result with
   | Rejected => throw
   | Streaming chunks ending => ret (chunks, ending)
   end)%eff.

Definition userMessageOf (clock : Clock) (text : string) (image : option string)
    : ChatMessage :=
  {| msg_id := now_user_id clock; role := user;
     parts := buildUserParts text image;
     timestamp := now_user_timestamp clock |}.

Definition modelMessageOf (clock : Clock) : ChatMessage :=
  {| msg_id := now_model_id clock + 1; role := model; parts := [];
     timestamp := now_model_timestamp clock |}.

Definition errorMessageOf (clock : Clock) : ChatMessage :=
  {| msg_id := now_error_id clock + 2; role := model;
     parts := [textOnly apology];
     timestamp := now_error_timestamp clock |}.

(** The [try] block. [closure] is the [messages] the function closed
    over. *)
Definition tryBlock (clock : Clock) (closure : list ChatMessage)
    (text : string) (image : option string) : Eff unit :=
  (let history := buildHistory closure in
   streamResult <- sendMessageStream text history image ;;
   let modelMessageId := (now_model_id clock + 1)%Z in
   let modelMessage := modelMessageOf clock in
   setMessages (fun prev => prev ++ [modelMessage]) ;;
   forAwait (fst streamResult) (snd streamResult)
     (fun chunk =>
        let newParts := chunkParts chunk in
        setMessages (applyChunk modelMessageId newParts)))%eff.

(** The [catch] block. *)
Definition catchBlock (clock : Clock) : Eff unit :=
  let errorMessage := errorMessageOf clock in
  setMessages (fun prev => prev ++ [errorMessage]).

(** [handleSendMessage(text, image)], run from a session whose transcript
    is the one the function closed over. *)
Definition handleSendMessage (clock : Clock) (text : string) (image : option string)
    : Eff unit :=
  fun s0 =>
    let closure := messages s0 in
    (setIsLoading true ;;
     let userMessage := userMessageOf clock text image in
     setMessages (fun prev => prev ++ [userMessage]) ;;
     tryCatchFinally
       (tryBlock clock closure text image)
       (catchBlock clock)
       (setIsLoading false))%eff s0.

End Controller.

(** ** ChatInterface.tsx, [escapeHtml] *)

(** [s.replace(/c/g, r)] for a pattern that is the single character [c]:
    every occurrence replaced, left to right. *)
Fixpoint replaceAllChar (c : ascii) (r : string) (s : string) : string :=
  match s with
  | EmptyString => EmptyString
  | String a rest =>
      if Ascii.eqb a c then r +:+ replaceAllChar c r rest
      else String a (replaceAllChar c r rest)
  end.

(** The double quote character. *)
Definition dquote : ascii := "034"%char.

(** [escapeHtml(unsafe)]: the empty string for a falsy argument, else the
    five replacements in the order of the source. *)
Definition escapeHtml (unsafe : option string) : string :=
  if negb (JS.truthy_str unsafe) then ""
  else
    replaceAllChar "'"%char "&#039;"
      (replaceAllChar dquote "&quot;"
         (replaceAllChar ">"%char "&gt;"
            (replaceAllChar "<"%char "&lt;"
               (replaceAllChar "&"%char "&amp;" (JS.or_empty unsafe))))).

(** ** The two renderers

    A rendered part is recorded by the component shown, its title, icon
    and badge, and its text; style classes are left out. The live view
    hands its strings to React, which shows them as text. The export
    writes its strings into an HTML document: a title as it is, a body
    text through [escapeHtml], an image source inside a double-quoted
    attribute; its nodes hold the strings as written. *)

Inductive Icon := Brain | Code2 | Terminal.

Inductive Badge := Success | Error.

(** The body of a section, by the text it is given. A markdown body is
    recorded by its source; how each side's markdown library draws that
    source is outside the model. *)
Inductive Body :=
| MarkdownBody (source : string)
| CodeBody (source : string)
| PreWrapBody (source : string).

Inductive Node :=
| Collapsible (title : string) (icon : Icon) (badge : option Badge) (body : Body)
| Prose (source : string)
| Image (src : string)
| CollapsibleHtml (titleHtml : string) (icon : Icon) (badge : option Badge)
    (bodyHtml : Body)
| ProseHtml (sourceHtml : string)
| ImageHtml (srcAttribute : string)
| Nothing.

#[global] Instance Icon_eq_dec : EqDecision Icon.
Proof. solve_decision. Defined.
#[global] Instance Badge_eq_dec : EqDecision Badge.
Proof. solve_decision. Defined.
#[global] Instance Body_eq_dec : EqDecision Body.
Proof. solve_decision. Defined.
#[global] Instance Node_eq_dec : EqDecision Node.
Proof. solve_decision. Defined.

(** A [string | undefined] interpolated in a template literal. *)
Definition interpolate (s : option string) : string :=
  match s with Some s => s | None => "undefined" end.

(** The badge both collapsible components draw: none for a falsy status,
    else "Success" exactly for [OUTCOME_OK]. *)
Definition badgeOf (status : option string) : option Badge :=
  if JS.truthy_str status then
    Some (if JS.strict_eq status (Some "OUTCOME_OK") then Success else Error)
  else None.

Definition codeTitle (e : ExecutableCode) : string :=
  "Executable Code (" +:+ interpolate (language e) +:+ ")".

Definition imageSrc (b : Blob) : string :=
  "data:" +:+ interpolate (mimeType b) +:+ ";base64," +:+ interpolate (data b).

(** *** Bold headings in a thought: [matchAll(/\*\*([^*]+)\*\*/g)] *)

(** The longest prefix without an asterisk, and what follows it. *)
Fixpoint spanNotStar (s : string) : string * string :=
  match s with
  | EmptyString => (EmptyString, EmptyString)
  | String c rest =>
      if Ascii.eqb c "*"%char then (EmptyString, s)
      else let '(g, r) := spanNotStar rest in (String c g, r)
  end.

(** A match anchored at the start of [s]: the captured group and the
    length of the whole match. The greedy class stops at the first
    asterisk, so no shorter capture can be followed by two asterisks. *)
Definition boldAt (s : string) : option (string * nat) :=
  match s with
  | String a (String b rest) =>
      if Ascii.eqb a "*"%char && Ascii.eqb b "*"%char then
        let '(g, r) := spanNotStar rest in
        match g, r with
        | String _ _, String c (String d _) =>
            if Ascii.eqb c "*"%char && Ascii.eqb d "*"%char
            then Some (g, 4 + String.length g) else None
        | _, _ => None
        end
      else None
  | _ => None
  end.

(** All captured groups, left to right; [skip] characters of a match just
    found are passed over before the search resumes. *)
Fixpoint boldMatchesFrom (skip : nat) (s : string) : list string :=
  match s with
  | EmptyString => []
  | String _ rest =>
      match skip with
      | S k => boldMatchesFrom k rest
      | O =>
          match boldAt s with
          | Some (g, len) => g :: boldMatchesFrom (pred len) rest
          | None => boldMatchesFrom 0 rest
          end
      end
  end.

Definition boldMatches (s : string) : list string := boldMatchesFrom 0 s.

(** *** ChatMessageItem.tsx, [renderPart] *)

(** [typeof part.thought === 'string' ? part.thought : (part.text || ...)]
    with the empty string as the fallback. *)
Definition thoughtContent (part : Part) : string :=
  match thought part with
  | Some (ThoughtStr s) => s
  | _ => JS.or_empty (text part)
  end.

(** [part.thought === true ||
     (typeof part.thought === 'string' && part.thought.length > 0)]. *)
Definition isThoughtLive (part : Part) : bool :=
  match thought part with
  | Some (ThoughtBool b) => b
  | Some (ThoughtStr s) => Nat.ltb 0 (String.length s)
  | None => false
  end.

(** [renderPart(part, index)] inside a [ChatMessageItem] whose message has
    [partCount] parts. *)
Definition renderPart (isStreaming : bool) (partCount : nat)
    (part : Part) (index : nat) : Node :=
  if isThoughtLive part then
    let title :=
      if isStreaming && Z.eqb (Z.of_nat index) (Z.of_nat partCount - 1) then
        match last (boldMatches (thoughtContent part)) with
        | Some lastTitle => "Thinking - " +:+ lastTitle
        | None => "Thought Process"
        end
      else "Thought Process" in
    Collapsible title Brain None (MarkdownBody (thoughtContent part))
  else
    match executableCode part with
    | Some e => Collapsible (codeTitle e) Code2 None (CodeBody (JS.or_empty (code e)))
    | None =>
        match codeExecutionResult part with
        | Some r =>
            Collapsible "Execution Result" Terminal (badgeOf (outcome r))
              (PreWrapBody (JS.or_empty (output r)))
        | None =>
            if JS.truthy_str (text part) then Prose (JS.or_empty (text part))
            else
              match inlineData part with
              | Some b => Image (imageSrc b)
              | None => Nothing
              end
        end
    end.


(** *** ChatInterface.tsx, [generateHtmlFromMessages]: one part *)

(** The callback of [msg.parts.map] in the export; [createCollapsible]
    writes its title between the tags of a [span] as it is. *)
Definition exportPart (part : Part) : Node :=
  if JS.truthy_thought (thought part) then
    let thoughtText :=
      match thought part with
      | Some (ThoughtStr s) => Some s
      | _ => text part
      end in
    if negb (JS.truthy_str thoughtText) then Nothing
    else CollapsibleHtml "Thought Process" Brain None (MarkdownBody (escapeHtml thoughtText))
  else
    match executableCode part with
    | Some e => CollapsibleHtml (codeTitle e) Code2 None (CodeBody (escapeHtml (code e)))
    | None =>
        match codeExecutionResult part with
        | Some r =>
            CollapsibleHtml "Execution Result" Terminal (badgeOf (outcome r))
              (PreWrapBody (escapeHtml (output r)))
        | None =>
            match inlineData part with
            | Some b => ImageHtml (imageSrc b)
            | None =>
                if JS.truthy_str (text part) then ProseHtml (escapeHtml (text part))
                else Nothing
            end
        end
    end.


(** The kind of part a rendered node shows. *)
Inductive Kind := KThought | KExecutableCode | KCodeExecutionResult | KText | KInlineData.

#[global] Instance Kind_eq_dec : EqDecision Kind.
Proof. solve_decision. Defined.

Definition kindShown (n : Node) : option Kind :=
  match n with
  | Collapsible _ Brain _ _ | CollapsibleHtml _ Brain _ _ => Some KThought
  | Collapsible _ Code2 _ _ | CollapsibleHtml _ Code2 _ _ => Some KExecutableCode
  | Collapsible _ Terminal _ _ | CollapsibleHtml _ Terminal _ _ =>
      Some KCodeExecutionResult
  | Prose _ | ProseHtml _ => Some KText
  | Image _ | ImageHtml _ => Some KInlineData
  | Nothing => None
  end.

(** ** The reducer on a store of objects

    To speak about mutation, the part objects and the arrays holding them
    live in a store, addressed by location; a reference is a location. The
    nested [executableCode], [codeExecutionResult] and [inlineData] objects
    are kept inside the part that owns them: the reducer reads them and
    builds copies, and has no assignment to a field of one. *)
Module Store.

Abbreviation loc := nat.

Inductive Cell :=
| PartObj (p : Part)
| ArrayObj (elems : list loc).

(** Locations are indices; a new object takes the next one. *)
Abbreviation Heap := (list Cell).

Definition alloc (c : Cell) (h : Heap) : loc * Heap := (length h, h ++ [c]).

Definition write (l : loc) (c : Cell) (h : Heap) : Heap := <[l := c]> h.

Definition readPart (h : Heap) (l : loc) : option Part :=
  match h !! l with
  | Some (PartObj p) => Some p
  | _ => None
  end.

Definition readArray (h : Heap) (l : loc) : list loc :=
  match h !! l with
  | Some (ArrayObj elems) => elems
  | _ => []
  end.

(** The parts an array of references denotes. *)
Definition contents (h : Heap) (arr : loc) : list (option Part) :=
  map (readPart h) (readArray h arr).

(** One loop iteration; [currentParts] is the location of the array the
    loop works on. Each part written is a new object. *)
Definition reduceStep (currentParts : loc) (newPart : Part) (h : Heap) : Heap :=
  let elems := readArray h currentParts in
  let lastPartIndex := pred (length elems) in
  let lastPart := elems !! lastPartIndex ≫= readPart h in
  match stepUpdate lastPart newPart with
  | Assign p =>
      let '(l, h1) := alloc (PartObj p) h in
      write currentParts (ArrayObj (<[lastPartIndex := l]> elems)) h1
  | Push p =>
      let '(l, h1) := alloc (PartObj p) h in
      write currentParts (ArrayObj (elems ++ [l])) h1
  | Keep => h
  end.

(** [const currentParts = [...lastMsg.parts]] followed by the loop:
    returns the location of [currentParts] and the store after. *)
Definition reduceParts (lastMsgParts : loc) (newParts : list Part) (h : Heap)
    : loc * Heap :=
  let '(currentParts, h1) := alloc (ArrayObj (readArray h lastMsgParts)) h in
  (currentParts, fold_left (fun h newPart => reduceStep currentParts newPart h) newParts h1).

End Store.

(** ** ChatInterface.tsx, the MIME type of a fetched example image

    The same lines stand in [ExampleCard] ([fetchImage]) and in
    [handleExampleClick]. *)

(** [s.split(c)] for a one-character separator: never an empty array. *)
Fixpoint splitChar (sep : ascii) (s : string) : list string :=
  match s with
  | EmptyString => [EmptyString]
  | String a rest =>
      if Ascii.eqb a sep then EmptyString :: splitChar sep rest
      else
        match splitChar sep rest with
        | seg :: more => String a seg :: more
        | [] => [String a EmptyString]
        end
  end.

(** [toLowerCase] on a string of ASCII characters: A-Z are lowered, the
    others stay. On other characters JavaScript may lower what this leaves
    in place, so the function is the source's only on ASCII strings. The
    extension is only compared with [jpg], [jpeg], [png], [webp] and
    [heic], and no character outside A-Z is lowered to one of their
    letters, so the comparisons come out as in the source on every
    string. *)
Definition lowerAscii (c : ascii) : ascii :=
  let n := nat_of_ascii c in
  if Nat.leb 65 n && Nat.leb n 90 then ascii_of_nat (n + 32) else c.

Fixpoint toLowerCase (s : string) : string :=
  match s with
  | EmptyString => EmptyString
  | String a rest => String (lowerAscii a) (toLowerCase rest)
  end.

(** [example.image.split('.').pop()?.toLowerCase()]. *)
Definition extensionOf (imageUrl : string) : option string :=
  toLowerCase <$> last (splitChar "."%char imageUrl).

(** "Fix for mime type if application/octet-stream": from [blob.type] and
    the image URL to the type given to the new blob. *)
Definition fixedMimeType (blobType : string) (imageUrl : string) : string :=
  if negb (JS.truthy_str (Some blobType)) || String.eqb blobType "application/octet-stream"
  then
    let ext := extensionOf imageUrl in
    if JS.strict_eq ext (Some "jpg") || JS.strict_eq ext (Some "jpeg") then "image/jpeg"
    else if JS.strict_eq ext (Some "png") then "image/png"
    else if JS.strict_eq ext (Some "webp") then "image/webp"
    else if JS.strict_eq ext (Some "heic") then "image/heic"
    else "image/jpeg"
  else blobType.

(** ** Opening and closing a collapsible section *)

(** ChatMessageItem.tsx, [CollapsiblePart]: the state [isOpen], initially
    [false]; a click sets it to [!isOpen]; the body is drawn and the arrow
    turned exactly when it is [true]. *)
Definition liveInitial : bool := false.

Definition liveClick (isOpen : bool) : bool := negb isOpen.

(** The section of the exported document that [toggleCollapse] works on:
    the inline [max-height] of the content (absent, or a number of pixels),
    whether the content has the class [open], and the rotation of the
    arrow in degrees (absent until the first click). *)
Record ExportPanel := {
  maxHeight : option nat;
  openClass : bool;
  arrowRotation : option nat
}.

(** The markup as generated: no inline style, no [open] class. *)
Definition exportInitial : ExportPanel :=
  {| maxHeight := None; openClass := false; arrowRotation := None |}.

(** [toggleCollapse(btn)], with [scrollHeight] the height of the content at
    the click. A pixel length is a non-empty string, hence truthy. *)
Definition toggleCollapse (panel : ExportPanel) (scrollHeight : nat) : ExportPanel :=
  if JS.truthy_obj (maxHeight panel) then
    {| maxHeight := None; openClass := false; arrowRotation := Some 0 |}
  else
    {| maxHeight := Some scrollHeight; openClass := true; arrowRotation := Some 90 |}.

(** * Properties *)

(** ** Vocabulary of the specification *)

(** The boolean thought flag of a part, an absent flag counting as false. *)
Definition thoughtFlag (p : Part) : bool := JS.truthy_thought (thought p).

(** A text element: it has a text and carries no [executableCode],
    [codeExecutionResult] or [inlineData] field. *)
Definition isTextElement (p : Part) : Prop :=
  is_Some (text p) ∧ executableCode p = None ∧
  codeExecutionResult p = None ∧ inlineData p = None.

(** The last element of the output so far is a text element whose thought
    flag equals that of the fragment [f]. *)
Definition textMergeTarget (cur : list Part) (f : Part) : Prop :=
  ∃ lp, last cur = Some lp ∧ isTextElement lp ∧ thoughtFlag lp = thoughtFlag f.

(** The last element of the output so far is an executable-code element
    whose language is that of [ne]. *)
Definition codeMergeTarget (cur : list Part) (ne : ExecutableCode) : Prop :=
  ∃ lp le, last cur = Some lp ∧ executableCode lp = Some le ∧
           language le = language ne.

(** The array at [arr] denotes the parts [ps]: each of its references
    leads to a part object. *)
Definition denotes (h : Store.Heap) (arr : Store.loc) (ps : list Part) : Prop :=
  Store.contents h arr = Some <$> ps.

(** What the loop keeps true of the store [h], started from the store [h0]
    with the working array at [arr] a copy of the references [elems0]:
    every object of [h0] is as it was, the working array denotes [ps], and
    a reference to an object of [h0] sits where [elems0] had it. *)
Definition loopInv (h0 : Store.Heap) (elems0 : list Store.loc) (arr : Store.loc)
    (h : Store.Heap) (ps : list Part) : Prop :=
  arr < length h ∧ length h0 ≤ length h ∧
  (∀ l, l < length h0 → h !! l = h0 !! l) ∧
  denotes h arr ps ∧
  (∀ i l, Store.readArray h arr !! i = Some l → l < length h0 → elems0 !! i = Some l).

(** A part has content for the upstream API: a non-empty text or one of
    the object fields. The thought flag is not content. *)
Definition hasContent (p : Part) : bool :=
  JS.truthy_str (text p) || JS.defined (inlineData p) ||
  JS.defined (functionCall p) || JS.defined (functionResponse p) ||
  JS.defined (executableCode p) || JS.defined (codeExecutionResult p).

(** [q] is [p] without its locally-added thought flag (and without an
    empty text). *)
Definition strippedOf (p q : Part) : Prop :=
  thought q = None ∧
  text q = (if JS.truthy_str (text p) then text p else None) ∧
  executableCode q = executableCode p ∧
  codeExecutionResult q = codeExecutionResult p ∧
  inlineData q = inlineData p ∧
  functionCall q = functionCall p ∧
  functionResponse q = functionResponse p.

(** The model message after the chunks [chunks] have been streamed into
    it. *)
Definition streamedMessageOf (clock : Clock) (chunks : list Chunk) : ChatMessage :=
  {| msg_id := now_model_id clock + 1; role := model;
     parts := reduceParts [] (concat (map chunkParts chunks));
     timestamp := now_model_timestamp clock |}.

(** The session once the user message is appended and the input surface
    disabled: where the [try] block starts. *)
Definition atTry (dataUrlMatch : string -> option (string * string))
    (clock : Clock) (text : string) (image : option string) (s0 : Session) : Session :=
  {| messages := messages s0 ++ [userMessageOf dataUrlMatch clock text image];
     isLoading := true; requestsSent := requestsSent s0 |}.

(** The answer of the hosted API to the one request a call of
    [handleSendMessage] makes from the session [s0]. *)
Definition answerOf (dataUrlMatch : string -> option (string * string))
    (chatApi : nat -> list Content -> list Part -> Upstream)
    (text : string) (image : option string) (s0 : Session) : Upstream :=
  chatApi (requestsSent s0) (buildHistory (messages s0))
    (requestParts dataUrlMatch text image).

(** The upstream stream failed: the request was rejected, or the stream
    aborted after some chunks. *)
Definition upstreamFailed (a : Upstream) : Prop :=
  a = Rejected ∨ ∃ chunks, a = Streaming chunks Aborted.

(** A thought part with nothing to show: the flag is set and the thought
    text is empty. *)
Definition emptyThought (p : Part) : bool :=
  thoughtFlag p && String.eqb (thoughtContent p) "".

(** A part that is shown as text or as an image depending on which of the
    two is tested first: it has a non-empty text and inline data, and
    nothing that either renderer tests before them. *)
Definition textAndImage (p : Part) : bool :=
  negb (thoughtFlag p) && negb (JS.defined (executableCode p)) &&
  negb (JS.defined (codeExecutionResult p)) &&
  JS.truthy_str (text p) && JS.defined (inlineData p).

(** The part carries the content field that the kind [k] shows: a set
    thought flag, a non-empty text, or the object field. *)
Definition carries (p : Part) (k : Kind) : bool :=
  match k with
  | KThought => thoughtFlag p
  | KExecutableCode => JS.defined (executableCode p)
  | KCodeExecutionResult => JS.defined (codeExecutionResult p)
  | KText => JS.truthy_str (text p)
  | KInlineData => JS.defined (inlineData p)
  end.

(** The priority order of the live renderer. *)
Definition priorityOrder : list Kind :=
  [KThought; KExecutableCode; KCodeExecutionResult; KText; KInlineData].

(** *** Concrete inputs for the examples *)

Definition noDataUrl : string -> option (string * string) := fun _ => None.

Definition clock0 : Clock :=
  {| now_user_id := 1000; now_user_timestamp := 1000;
     now_model_id := 1005; now_model_timestamp := 1005;
     now_error_id := 1009; now_error_timestamp := 1009 |}.

Definition session0 : Session :=
  {| messages := []; isLoading := false; requestsSent := 0 |}.

(** A chunk carrying the given parts in its first candidate. *)
Definition chunkOf (ps : list Part) : Chunk :=
  {| candidates :=
       Some [{| content := Some {| content_role := Some model;
                                   content_parts := Some ps |} |}] |}.

(** An API that streams one chunk and then aborts. *)
Definition abortingApi : nat -> list Content -> list Part -> Upstream :=
  fun _ _ _ => Streaming [chunkOf [textOnly "Hel"]] Aborted.

(** An API that streams one chunk without candidates and completes. *)
Definition silentApi : nat -> list Content -> list Part -> Upstream :=
  fun _ _ _ => Streaming [{| candidates := None |}] Completed.


(** *** Vocabulary for the further properties *)

(** A sequence without its last element. *)
Definition butLast {A} (l : list A) : list A := take (pred (length l)) l.

(** The text of a part, empty when it has none, and the text of a
    sequence of parts read in order. *)
Definition textOf (p : Part) : string := JS.or_empty (text p).

Definition allText (ps : list Part) : string :=
  foldr (fun p acc => textOf p +:+ acc) "" ps.

(** The number of content fields a part has among text, executableCode,
    codeExecutionResult and inlineData. *)
Definition fieldCount (p : Part) : nat :=
  (if JS.defined (text p) then 1 else 0) +
  (if JS.defined (executableCode p) then 1 else 0) +
  (if JS.defined (codeExecutionResult p) then 1 else 0) +
  (if JS.defined (inlineData p) then 1 else 0).

(** A part shaped like a value of a tagged union: exactly one content
    field, a thought flag only beside a text, and no function call or
    response. *)
Definition wellTagged (p : Part) : Prop :=
  fieldCount p = 1 ∧
  (thought p ≠ None → is_Some (text p)) ∧
  functionCall p = None ∧ functionResponse p = None.

(** What one character becomes when the five characters are replaced at
    once. *)
Definition escapeChar (a : ascii) : string :=
  if Ascii.eqb a "&"%char then "&amp;"
  else if Ascii.eqb a "<"%char then "&lt;"
  else if Ascii.eqb a ">"%char then "&gt;"
  else if Ascii.eqb a dquote then "&quot;"
  else if Ascii.eqb a "'"%char then "&#039;"
  else String a EmptyString.

Definition escapeEach (s : string) : string :=
  (fix go (s : string) : string :=
     match s with
     | EmptyString => EmptyString
     | String a rest => escapeChar a +:+ go rest
     end) s.

(** The characters of a string. *)
Definition chars (s : string) : list ascii := list_ascii_of_string s.

(** The part with the MIME type [application/octet-stream] of its inline
    data replaced by [image/jpeg]. *)
Definition withJpegFallback (p : Part) : Part :=
  match inlineData p with
  | Some b =>
      if JS.strict_eq (mimeType b) (Some "application/octet-stream") then
        {| text := text p; thought := thought p; executableCode := executableCode p;
           codeExecutionResult := codeExecutionResult p;
           inlineData := Some {| mimeType := Some "image/jpeg"; data := data b |};
           functionCall := functionCall p; functionResponse := functionResponse p |}
      else p
  | None => p
  end.

(** The readings of the clock do not go back in time. *)
Definition monotone (clock : Clock) : Prop :=
  (now_user_id clock ≤ now_model_id clock)%Z ∧
  (now_model_id clock ≤ now_error_id clock)%Z.

(** *** Reading the exported HTML *)

(** The text a browser shows for a run of HTML that holds no markup:
    [Decodes stop html shown], where [stop] is the character that would end
    the run (the opening angle bracket between tags, the double quote
    inside a double-quoted attribute). A character other than [stop] and
    the ampersand stands for itself, and each of the five entities that
    [escapeHtml] writes stands for its character. HTML with a tag, or with
    another character reference, is not read by this relation. *)
Inductive Decodes (stop : ascii) : string -> string -> Prop :=
| decodes_end : Decodes stop EmptyString EmptyString
| decodes_char c html shown :
    c ≠ "&"%char → c ≠ stop → Decodes stop html shown →
    Decodes stop (String c html) (String c shown)
| decodes_amp html shown :
    Decodes stop html shown → Decodes stop ("&amp;" +:+ html) (String "&"%char shown)
| decodes_lt html shown :
    Decodes stop html shown → Decodes stop ("&lt;" +:+ html) (String "<"%char shown)
| decodes_gt html shown :
    Decodes stop html shown → Decodes stop ("&gt;" +:+ html) (String ">"%char shown)
| decodes_quot html shown :
    Decodes stop html shown → Decodes stop ("&quot;" +:+ html) (String dquote shown)
| decodes_apos html shown :
    Decodes stop html shown → Decodes stop ("&#039;" +:+ html) (String "'"%char shown).





(** The text holds a bold heading: a non-empty run without an asterisk
    between two pairs of asterisks. *)
Definition hasHeading (s : string) : Prop :=
  ∃ pre heading post,
    s = pre +:+ "**" +:+ heading +:+ "**" +:+ post ∧
    heading ≠ "" ∧
    Forall (fun c => c ≠ "*"%char) (list_ascii_of_string heading).

(** A string with its first [n] characters removed. *)
Fixpoint dropChars (n : nat) (s : string) : string :=
  match n, s with
  | S k, String _ rest => dropChars k rest
  | _, _ => s
  end.

(** ** Helper lemmas on the JavaScript tests *)

Lemma truthy_str_Some s : JS.truthy_str (Some s) = true ↔ s ≠ "".
Proof.
  unfold JS.truthy_str. destruct (String.eqb_spec s ""); simpl; split; congruence.
Qed.

Lemma truthy_str_true o : JS.truthy_str o = true → ∃ s, o = Some s ∧ s ≠ "".
Proof.
  destruct o as [s|]; [|discriminate]. intros H. exists s. split; [done|].
  by apply truthy_str_Some.
Qed.

Lemma truthy_str_false o : JS.truthy_str o = false ↔ o = None ∨ o = Some "".
Proof.
  destruct o as [s|]; simpl; [|by split; [left|]].
  destruct (String.eqb_spec s "") as [->|Hne]; simpl.
  - by split; [right|].
  - split; [discriminate | intros [?|?]; congruence].
Qed.

Lemma or_empty_falsy o : JS.truthy_str o = false → JS.or_empty o = "".
Proof. intros [->| ->]%truthy_str_false; done. Qed.

Lemma strict_eq_true a b : JS.strict_eq a b = true ↔ a = b.
Proof. unfold JS.strict_eq. apply bool_decide_eq_true. Qed.

Lemma last_pred_length {A} (l : list A) : l !! pred (length l) = last l.
Proof. symmetry. apply last_lookup. Qed.

Lemma last_Some_snoc {A} (l : list A) x : last l = Some x → ∃ init, l = init ++ [x].
Proof.
  intros H. destruct (decide (l = [])) as [->|Hne]; [done|].
  destruct (exists_last Hne) as (init & y & ->).
  rewrite last_snoc in H. simplify_eq. by exists init.
Qed.

Lemma insert_last_snoc {A} (init : list A) x y :
  <[pred (length (init ++ [x])) := y]> (init ++ [x]) = init ++ [y].
Proof.
  rewrite length_app. simpl. replace (pred (length init + 1)) with (length init + 0) by lia.
  by rewrite insert_app_r.
Qed.

(** [isMergeableText] against a fragment that has a text and nothing else
    says exactly that the other part is a text element with the same
    thought flag. *)
Lemma isMergeableText_spec lp f :
  is_Some (text f) → executableCode f = None →
  codeExecutionResult f = None → inlineData f = None →
  isMergeableText lp f = true ↔ (isTextElement lp ∧ thoughtFlag lp = thoughtFlag f).
Proof.
  intros [s Hs] He Hr Hi. unfold isMergeableText, isTextElement, thoughtFlag.
  rewrite Hs, He, Hr, Hi. simpl.
  destruct (text lp), (executableCode lp), (codeExecutionResult lp), (inlineData lp);
    simpl; try (split; [discriminate | intros [(? & ? & ? & ?) _]; by (discriminate || (exfalso; by eapply is_Some_None))]).
  rewrite Bool.eqb_true_iff. split; [intros ->; by eauto | by intros [_ ->]].
Qed.

Lemma textMergeTarget_dec cur f :
  is_Some (text f) → executableCode f = None →
  codeExecutionResult f = None → inlineData f = None →
  textMergeTarget cur f ↔ ∃ lp, last cur = Some lp ∧ isMergeableText lp f = true.
Proof.
  intros. unfold textMergeTarget. split; intros (lp & Hl & H').
  - exists lp. split; [done|]. by apply isMergeableText_spec.
  - exists lp. split; [done|]. by apply isMergeableText_spec.
Qed.

(** ** The reducer, one fragment at a time *)

Lemma reduceStep_assign cur f lp p :
  last cur = Some lp → stepUpdate (Some lp) f = Assign p →
  ∃ init, cur = init ++ [lp] ∧ reduceStep cur f = init ++ [p].
Proof.
  intros Hl Hu. destruct (last_Some_snoc _ _ Hl) as [init ->].
  exists init. split; [done|]. unfold reduceStep.
  rewrite last_pred_length, Hl, Hu. apply insert_last_snoc.
Qed.

Lemma reduceStep_push cur f p :
  stepUpdate (last cur) f = Push p → reduceStep cur f = cur ++ [p].
Proof. intros Hu. unfold reduceStep. by rewrite last_pred_length, Hu. Qed.

Lemma reduceStep_keep cur f :
  stepUpdate (last cur) f = Keep → reduceStep cur f = cur.
Proof. intros Hu. unfold reduceStep. by rewrite last_pred_length, Hu. Qed.

(** A fragment with a non-empty text and no other content: merged exactly
    into a matching last text element, appended otherwise. *)
Lemma text_fragment_cases cur f s :
  text f = Some s → s ≠ "" →
  executableCode f = None → codeExecutionResult f = None → inlineData f = None →
  (textMergeTarget cur f ∧
     ∃ init lp t, cur = init ++ [lp] ∧ text lp = Some t ∧
       reduceStep cur f = init ++ [withText lp (t +:+ s)]) ∨
  (¬ textMergeTarget cur f ∧
     reduceStep cur f = cur ++ [textPart (Some s) (thought f)]).
Proof.
  intros Hs Hne He Hr Hi.
  assert (Htr : JS.truthy_str (text f) = true) by (rewrite Hs; by apply truthy_str_Some).
  assert (HS : is_Some (text f)) by (by rewrite Hs).
  destruct (last cur) as [lp|] eqn:Hl.
  - destruct (isMergeableText lp f) eqn:Hm.
    + left. pose proof Hm as Hm'.
      apply isMergeableText_spec in Hm' as [([t Ht] & _) _]; [|done..].
      split; [apply textMergeTarget_dec; eauto|].
      destruct (reduceStep_assign cur f lp (withText lp (t +:+ s)) Hl) as (init & -> & Hred).
      { unfold stepUpdate. by rewrite Htr, Hm, Ht, Hs. }
      by exists init, lp, t.
    + right. split.
      * intros (lp' & Hl' & Hm')%textMergeTarget_dec; [|done..]. congruence.
      * apply reduceStep_push. rewrite Hl. unfold stepUpdate. by rewrite Htr, Hm, Hs.
  - right. split.
    + intros (lp' & Hl' & _). congruence.
    + apply reduceStep_push. rewrite Hl. unfold stepUpdate. by rewrite Htr, Hs.
Qed.

(** ** C1: the text merge rule *)

(** C1, amended: for every current sequence and every incoming Text
    fragment whose text is not empty (a text and no other content field),
    the reducer concatenates the fragment's text onto the last element if
    and only if that element is a text element without [executableCode],
    [codeExecutionResult] or [inlineData] whose thought flag (absent
    counting as false) equals the fragment's: the last element is then
    replaced by one with the text of the old one followed by the
    fragment's text, and with the old one's thought flag. Otherwise the
    sequence gets one more element, whose only fields are the fragment's
    text and thought flag. *)
Theorem text_fragment_merge_rule (cur : list Part) (f : Part) (s : string) :
  text f = Some s → s ≠ "" →
  executableCode f = None → codeExecutionResult f = None → inlineData f = None →
  (textMergeTarget cur f →
     ∃ init lp t, cur = init ++ [lp] ∧ text lp = Some t ∧
       reduceStep cur f =
         init ++ [{| text := Some (t +:+ s); thought := thought lp;
                     executableCode := None; codeExecutionResult := None;
                     inlineData := None; functionCall := functionCall lp;
                     functionResponse := functionResponse lp |}]) ∧
  (¬ textMergeTarget cur f →
     reduceStep cur f =
       cur ++ [{| text := Some s; thought := thought f;
                  executableCode := None; codeExecutionResult := None;
                  inlineData := None; functionCall := None;
                  functionResponse := None |}]) ∧
  (length (reduceStep cur f) = length cur ↔ textMergeTarget cur f).
Proof.
  intros Hs Hne He Hr Hi.
  destruct (text_fragment_cases cur f s Hs Hne He Hr Hi)
    as [[Ht (init & lp & t & -> & Hlp & Hred)] | [Hnt Hred]].
  - split; [|split].
    + intros _. exists init, lp, t. split; [done|]. split; [done|].
      destruct Ht as (lp' & Hl & (_ & Hle & Hlr & Hli) & _).
      rewrite last_snoc in Hl. simplify_eq.
      rewrite Hred. unfold withText. by rewrite Hle, Hlr, Hli.
    + done.
    + rewrite Hred, !length_app. done.
  - split; [|split].
    + done.
    + intros _. exact Hred.
    + rewrite Hred, length_app. simpl. split; [lia | done].
Qed.

Lemma text_fragment_merge_rule_witness :
  let cur := [textOnly "Hello"] in
  let f := textOnly " world" in
  (text f = Some " world" ∧ " world" ≠ "" ∧ executableCode f = None ∧
   codeExecutionResult f = None ∧ inlineData f = None) ∧
  (textMergeTarget cur f →
     ∃ init lp t, cur = init ++ [lp] ∧ text lp = Some t ∧
       reduceStep cur f =
         init ++ [{| text := Some (t +:+ " world"); thought := thought lp;
                     executableCode := None; codeExecutionResult := None;
                     inlineData := None; functionCall := functionCall lp;
                     functionResponse := functionResponse lp |}]) ∧
  (¬ textMergeTarget cur f →
     reduceStep cur f =
       cur ++ [{| text := Some " world"; thought := thought f;
                  executableCode := None; codeExecutionResult := None;
                  inlineData := None; functionCall := None;
                  functionResponse := None |}]) ∧
  (length (reduceStep cur f) = length cur ↔ textMergeTarget cur f).
Proof.
  split.
  - repeat split; (reflexivity || discriminate).
  - apply (text_fragment_merge_rule [textOnly "Hello"] (textOnly " world") " world");
      (reflexivity || discriminate).
Defined.

(** C1 as stated fails on a Text fragment with empty text: with nothing to
    merge into, the fragment is not appended; the output stays empty. *)
Lemma text_rule_fails_on_empty_text :
  let f := {| text := Some ""; thought := None; executableCode := None;
              codeExecutionResult := None; inlineData := None;
              functionCall := None; functionResponse := None |} in
  isTextElement f ∧ ¬ textMergeTarget [] f ∧
  reduceStep [] f = [] ∧
  ∀ appended, reduceStep [] f ≠ [] ++ [appended].
Proof.
  simpl. split; [|split; [|split]].
  - by repeat split; eauto.
  - by intros (lp & Hl & _).
  - reflexivity.
  - intros appended. discriminate.
Qed.

(** ** C2: fragments with an empty text *)

(** C2, amended: an incoming Text fragment whose text is the empty string
    does not go through the text merge rule. With a true thought flag it is
    always appended as a new zero-length thought Text element, whatever the
    last element is; with a false or absent thought flag it is dropped and
    the sequence is returned as it was. *)
Theorem empty_text_fragment (cur : list Part) (f : Part) :
  text f = Some "" →
  executableCode f = None → codeExecutionResult f = None → inlineData f = None →
  reduceStep cur f =
    if thoughtFlag f then cur ++ [textPart (Some "") (thought f)] else cur.
Proof.
  intros Hs He Hr Hi. unfold thoughtFlag.
  destruct (JS.truthy_thought (thought f)) eqn:Ht.
  - apply reduceStep_push. unfold stepUpdate. by rewrite Hs, He, Hr, Hi, Ht.
  - apply reduceStep_keep. unfold stepUpdate. by rewrite Hs, He, Hr, Hi, Ht.
Qed.

Lemma empty_text_fragment_witness :
  let cur := [textOnly "Hello"] in
  let f := textPart (Some "") (Some (ThoughtBool true)) in
  (text f = Some "" ∧ executableCode f = None ∧
   codeExecutionResult f = None ∧ inlineData f = None) ∧
  reduceStep cur f =
    if thoughtFlag f then cur ++ [textPart (Some "") (thought f)] else cur.
Proof.
  split.
  - repeat split; reflexivity.
  - apply (empty_text_fragment [textOnly "Hello"]
             (textPart (Some "") (Some (ThoughtBool true)))); reflexivity.
Defined.

(** C2 as stated fails twice. An empty thought fragment arriving after a
    thought text element, which the merge rule would merge, is appended as
    a second element; an empty plain fragment arriving after a code
    element, which the merge rule would append, is dropped. *)
Lemma empty_text_not_merged_or_dropped :
  let thinking := textPart (Some "plan") (Some (ThoughtBool true)) in
  let emptyThought := textPart (Some "") (Some (ThoughtBool true)) in
  let pyCode := codePart {| language := Some "PYTHON"; code := Some "x = 1" |} in
  (textMergeTarget [thinking] emptyThought ∧
   reduceStep [thinking] emptyThought = [thinking; emptyThought] ∧
   reduceStep [thinking] emptyThought ≠ [withText thinking ("plan" +:+ "")]) ∧
  (¬ textMergeTarget [pyCode] (textOnly "") ∧
   reduceStep [pyCode] (textOnly "") = [pyCode] ∧
   reduceStep [pyCode] (textOnly "") ≠ [pyCode; textOnly ""]).
Proof.
  simpl. split; [split; [|split]|split; [|split]].
  - eexists. split; [reflexivity|]. split; [|reflexivity].
    by repeat split; eauto.
  - reflexivity.
  - discriminate.
  - intros (lp & Hl & (_ & He & _) & _). simpl in Hl. by simplify_eq.
  - reflexivity.
  - discriminate.
Qed.

(** ** C5: executable code merges by language *)

Lemma codeMergeTarget_cases cur ne :
  (∃ lp le, last cur = Some lp ∧ executableCode lp = Some le ∧
            JS.strict_eq (language le) (language ne) = true) ∨
  (¬ codeMergeTarget cur ne ∧
   ∀ lp le, last cur = Some lp → executableCode lp = Some le →
            JS.strict_eq (language le) (language ne) = false).
Proof.
  destruct (last cur) as [lp|] eqn:Hl.
  - destruct (executableCode lp) as [le|] eqn:He.
    + destruct (JS.strict_eq (language le) (language ne)) eqn:Hq.
      * left. by exists lp, le.
      * right. split.
        -- intros (lp' & le' & ? & ? & Hlang). simplify_eq.
           apply strict_eq_true in Hlang. congruence.
        -- intros lp' le' ? ?. by simplify_eq.
    + right. split.
      * intros (lp' & le' & ? & ? & _). by simplify_eq.
      * intros lp' le' ? ?. by simplify_eq.
  - right. split.
    + intros (lp' & le' & ? & _). by simplify_eq.
    + intros lp' le' ?. by simplify_eq.
Qed.

(** C5: for every current sequence, an incoming ExecutableCode fragment
    (one the reducer does not take as text, with an [executableCode]
    field) is merged if and only if the last element is an ExecutableCode
    element with an identical language: that element is then replaced by
    one that differs only in its code, which is the old code followed by
    the fragment's code. Otherwise, and in particular next to code in
    another language, the sequence gets one more element, whose only
    field is the fragment's executable code. (A missing old code counts as
    empty; a missing new code is concatenated as JavaScript prints it.) *)
Theorem code_fragment_merge_rule (cur : list Part) (f : Part) (ne : ExecutableCode) :
  JS.truthy_str (text f) = false → executableCode f = Some ne →
  (codeMergeTarget cur ne →
     ∃ init lp le, cur = init ++ [lp] ∧ executableCode lp = Some le ∧
       reduceStep cur f =
         init ++ [{| text := text lp; thought := thought lp;
                     executableCode :=
                       Some {| language := language ne;
                               code := Some (match code le with
                                             | Some old => old
                                             | None => ""
                                             end +:+
                                             match code ne with
                                             | Some new => new
                                             | None => "undefined"
                                             end) |};
                     codeExecutionResult := codeExecutionResult lp;
                     inlineData := inlineData lp;
                     functionCall := functionCall lp;
                     functionResponse := functionResponse lp |}] ∧
       ∀ c0 c, code le = Some c0 → code ne = Some c →
         ∃ merged e, last (reduceStep cur f) = Some merged ∧
                     executableCode merged = Some e ∧ code e = Some (c0 +:+ c)) ∧
  (¬ codeMergeTarget cur ne →
     reduceStep cur f =
       cur ++ [{| text := None; thought := None; executableCode := Some ne;
                  codeExecutionResult := None; inlineData := None;
                  functionCall := None; functionResponse := None |}]) ∧
  (∀ lp le, last cur = Some lp → executableCode lp = Some le →
     language le ≠ language ne →
     reduceStep cur f =
       cur ++ [{| text := None; thought := None; executableCode := Some ne;
                  codeExecutionResult := None; inlineData := None;
                  functionCall := None; functionResponse := None |}]) ∧
  (length (reduceStep cur f) = length cur ↔ codeMergeTarget cur ne).
Proof.
  intros Ht He.
  assert (Hcopy : codePart ne =
            {| text := None; thought := None; executableCode := Some ne;
               codeExecutionResult := None; inlineData := None;
               functionCall := None; functionResponse := None |})
    by (by destruct ne).
  assert (Hpush : ¬ codeMergeTarget cur ne → reduceStep cur f = cur ++ [codePart ne]).
  { intros Hn. apply reduceStep_push. unfold stepUpdate. rewrite Ht, He.
    destruct (codeMergeTarget_cases cur ne) as [(lp & le & Hl & Hle & Hq) | [_ Hall]].
    - exfalso. apply Hn. exists lp, le. by apply strict_eq_true in Hq.
    - destruct (last cur) as [lp|]; [|done].
      destruct (executableCode lp) as [le|] eqn:Hle; [|done].
      by rewrite (Hall lp le). }
  assert (Hmerge : codeMergeTarget cur ne →
     ∃ init lp le, cur = init ++ [lp] ∧ executableCode lp = Some le ∧
       language le = language ne ∧
       reduceStep cur f =
         init ++ [withExecutableCode lp
                    {| language := language le;
                       code := Some (JS.plus (JS.or_empty (code le)) (code ne)) |}]).
  { intros (lp & le & Hl & Hle & Hlang).
    edestruct (reduceStep_assign cur f lp) as (init & -> & Hred); [done| |].
    - unfold stepUpdate. rewrite Ht, He, Hle.
      replace (JS.strict_eq (language le) (language ne)) with true
        by (symmetry; by apply strict_eq_true).
      reflexivity.
    - by exists init, lp, le. }
  split; [|split; [|split]].
  - intros Hc. destruct (Hmerge Hc) as (init & lp & le & -> & Hle & Hlang & Hred).
    exists init, lp, le. split; [done|]. split; [done|]. split.
    + rewrite Hred. unfold withExecutableCode, JS.plus, JS.or_empty. by rewrite Hlang.
    + intros c0 c Hc0 Hc1. rewrite Hred, last_snoc. eexists _, _.
      split; [reflexivity|]. split; [reflexivity|]. simpl. by rewrite Hc0, Hc1.
  - intros Hn. by rewrite (Hpush Hn), Hcopy.
  - intros lp le Hl Hle Hneq. rewrite <- Hcopy. apply Hpush.
    intros (lp' & le' & ? & ? & ?). by simplify_eq.
  - split.
    + intros Hlen. destruct (codeMergeTarget_cases cur ne)
        as [(lp & le & Hl & Hle & Hq) | [Hn _]].
      * exists lp, le. by apply strict_eq_true in Hq.
      * rewrite (Hpush Hn), length_app in Hlen. simpl in Hlen. lia.
    + intros Hc. destruct (Hmerge Hc) as (init & lp & le & -> & _ & _ & ->).
      by rewrite !length_app.
Qed.

Lemma code_fragment_merge_rule_witness :
  let py1 := {| text := None; thought := None;
                executableCode := Some {| language := Some "PYTHON";
                                          code := Some "import math" |};
                codeExecutionResult := None; inlineData := None;
                functionCall := None; functionResponse := None |} in
  let ne := {| language := Some "PYTHON"; code := Some "; print(1)" |} in
  let py2 := {| text := None; thought := None; executableCode := Some ne;
                codeExecutionResult := None; inlineData := None;
                functionCall := None; functionResponse := None |} in
  (JS.truthy_str (text py2) = false ∧ executableCode py2 = Some ne) ∧
  (length (reduceStep [py1] py2) = length [py1] ↔ codeMergeTarget [py1] ne) ∧
  reduceStep [py1] py2 =
    [{| text := None; thought := None;
        executableCode := Some {| language := Some "PYTHON";
                                  code := Some "import math; print(1)" |};
        codeExecutionResult := None; inlineData := None;
        functionCall := None; functionResponse := None |}].
Proof.
  split; [split; reflexivity|]. split; [|reflexivity].
  apply (code_fragment_merge_rule
           [{| text := None; thought := None;
               executableCode := Some {| language := Some "PYTHON";
                                         code := Some "import math" |};
               codeExecutionResult := None; inlineData := None;
               functionCall := None; functionResponse := None |}]
           {| text := None; thought := None;
              executableCode := Some {| language := Some "PYTHON";
                                        code := Some "; print(1)" |};
              codeExecutionResult := None; inlineData := None;
              functionCall := None; functionResponse := None |}
           {| language := Some "PYTHON"; code := Some "; print(1)" |});
    reflexivity.
Defined.

(** ** C6: results and inline data are always appended *)

(** C6: for every current sequence, an incoming CodeExecutionResult
    fragment and an incoming InlineData fragment are appended, whatever
    the last element is: the sequence gets one more element, whose only
    field is the fragment's result (its outcome and output), or the
    fragment's inline data (its MIME type and data). Two consecutive
    results with the same outcome give two elements. *)
Theorem result_and_inline_always_appended (cur : list Part) (f : Part) :
  JS.truthy_str (text f) = false → executableCode f = None →
  (∀ r, codeExecutionResult f = Some r →
     reduceStep cur f =
       cur ++ [{| text := None; thought := None; executableCode := None;
                  codeExecutionResult := Some r; inlineData := None;
                  functionCall := None; functionResponse := None |}] ∧
     reduceParts cur [f; f] =
       cur ++ [{| text := None; thought := None; executableCode := None;
                  codeExecutionResult := Some r; inlineData := None;
                  functionCall := None; functionResponse := None |};
               {| text := None; thought := None; executableCode := None;
                  codeExecutionResult := Some r; inlineData := None;
                  functionCall := None; functionResponse := None |}]) ∧
  (∀ b, codeExecutionResult f = None → inlineData f = Some b →
     reduceStep cur f =
       cur ++ [{| text := None; thought := None; executableCode := None;
                  codeExecutionResult := None; inlineData := Some b;
                  functionCall := None; functionResponse := None |}]).
Proof.
  intros Ht He.
  assert (Hres : ∀ cur' r, codeExecutionResult f = Some r →
            reduceStep cur' f =
              cur' ++ [{| text := None; thought := None; executableCode := None;
                          codeExecutionResult := Some r; inlineData := None;
                          functionCall := None; functionResponse := None |}]).
  { intros cur' r Hr. rewrite (reduceStep_push cur' f (resultPart r)).
    - by destruct r.
    - unfold stepUpdate. by rewrite Ht, He, Hr. }
  split.
  - intros r Hr. split; [by apply Hres|].
    unfold reduceParts. simpl. rewrite !(Hres _ r Hr). by rewrite <- app_assoc.
  - intros b Hr Hb. rewrite (reduceStep_push cur f (inlinePart b)).
    + by destruct b.
    + unfold stepUpdate. by rewrite Ht, He, Hr, Hb.
Qed.

Lemma result_and_inline_always_appended_witness :
  let ok := {| text := None; thought := None; executableCode := None;
               codeExecutionResult :=
                 Some {| outcome := Some "OUTCOME_OK"; output := Some "1" |};
               inlineData := None; functionCall := None; functionResponse := None |} in
  (JS.truthy_str (text ok) = false ∧ executableCode ok = None) ∧
  reduceStep [ok] ok = [ok; ok] ∧
  reduceParts [ok] [ok; ok] = [ok; ok; ok].
Proof.
  split; [split; reflexivity|].
  apply (result_and_inline_always_appended
           [{| text := None; thought := None; executableCode := None;
               codeExecutionResult :=
                 Some {| outcome := Some "OUTCOME_OK"; output := Some "1" |};
               inlineData := None; functionCall := None; functionResponse := None |}]
           {| text := None; thought := None; executableCode := None;
              codeExecutionResult :=
                Some {| outcome := Some "OUTCOME_OK"; output := Some "1" |};
              inlineData := None; functionCall := None; functionResponse := None |});
    reflexivity.
Defined.

(** ** C7: the reducer on the store writes new objects only *)

Lemma readPart_lt h l p : Store.readPart h l = Some p → l < length h.
Proof.
  unfold Store.readPart. destruct (h !! l) eqn:Hl; [|done].
  intros _. by eapply lookup_lt_Some.
Qed.

Lemma denotes_lookup h arr ps i :
  denotes h arr ps → Store.readArray h arr !! i ≫= Store.readPart h = ps !! i.
Proof.
  unfold denotes, Store.contents. intros Hd.
  assert (H : map (Store.readPart h) (Store.readArray h arr) !! i = (Some <$> ps) !! i)
    by (by rewrite Hd).
  rewrite list_lookup_fmap in H.
  change (map (Store.readPart h)) with (fmap (M:=list) (Store.readPart h)) in H.
  rewrite list_lookup_fmap in H.
  destruct (Store.readArray h arr !! i) as [l|], (ps !! i) as [p|]; simpl in *; congruence.
Qed.

Lemma denotes_length h arr ps :
  denotes h arr ps → length (Store.readArray h arr) = length ps.
Proof.
  unfold denotes, Store.contents. intros Hd.
  apply (f_equal length) in Hd. by rewrite length_map, length_fmap in Hd.
Qed.

Lemma denotes_elem_part h arr ps e :
  denotes h arr ps → e ∈ Store.readArray h arr → ∃ p, Store.readPart h e = Some p.
Proof.
  intros Hd [i Hi]%list_elem_of_lookup.
  pose proof (denotes_lookup h arr ps i Hd) as H. rewrite Hi in H. simpl in H.
  assert (Hlt : i < length ps).
  { rewrite <- (denotes_length h arr ps Hd). by eapply lookup_lt_Some. }
  destruct (lookup_lt_is_Some_2 ps i Hlt) as [p Hp]. exists p. congruence.
Qed.

(** Writing a new array value at [arr] after allocating one part. *)
Lemma write_after_alloc_lookup h arr p elems l :
  l ≠ arr → l < length h →
  Store.write arr (Store.ArrayObj elems) (h ++ [Store.PartObj p]) !! l = h !! l.
Proof.
  intros Hne Hlt. unfold Store.write.
  rewrite list_lookup_insert_ne by done. by apply lookup_app_l.
Qed.

Lemma write_after_alloc_array h arr p elems :
  arr < length h →
  Store.readArray (Store.write arr (Store.ArrayObj elems) (h ++ [Store.PartObj p])) arr
  = elems.
Proof.
  intros Hlt. unfold Store.readArray, Store.write.
  rewrite list_lookup_insert_eq; [done|]. rewrite length_app. simpl. lia.
Qed.

Lemma write_after_alloc_new h arr p elems :
  arr < length h →
  Store.readPart (Store.write arr (Store.ArrayObj elems) (h ++ [Store.PartObj p]))
    (length h) = Some p.
Proof.
  intros Hlt. unfold Store.readPart, Store.write.
  rewrite list_lookup_insert_ne by lia.
  rewrite lookup_app_r by lia. by rewrite Nat.sub_diag.
Qed.

Lemma write_after_alloc_old h arr p elems e q :
  Store.readPart h e = Some q → e ≠ arr →
  Store.readPart (Store.write arr (Store.ArrayObj elems) (h ++ [Store.PartObj p])) e
  = Some q.
Proof.
  intros Hq Hne. unfold Store.readPart.
  rewrite write_after_alloc_lookup; [done..|]. by eapply readPart_lt.
Qed.

Section StoreLoop.

Variables (h0 : Store.Heap) (elems0 : list Store.loc) (arr : Store.loc).
Hypothesis arr_fresh : length h0 ≤ arr.

(** One iteration keeps the loop invariant and follows the reducer on
    values. *)
Lemma store_reduceStep_inv h ps newPart :
  loopInv h0 elems0 arr h ps →
  loopInv h0 elems0 arr (Store.reduceStep arr newPart h) (reduceStep ps newPart).
Proof.
  intros (Harr & Hlen & Hframe & Hden & Hold).
  unfold Store.reduceStep, reduceStep.
  rewrite (denotes_lookup h arr ps _ Hden), (denotes_length h arr ps Hden).
  set (elems := Store.readArray h arr) in *.
  assert (Hparts : ∀ elems' p,
    Store.readPart (Store.write arr (Store.ArrayObj elems') (h ++ [Store.PartObj p]))
      <$> elems = Some <$> ps).
  { intros elems' p. rewrite <- Hden. unfold Store.contents. fold elems.
    apply list_eq. intros i.
    change (map (Store.readPart h)) with (fmap (M:=list) (Store.readPart h)).
    rewrite !list_lookup_fmap.
    destruct (elems !! i) as [e|] eqn:He; [simpl|done].
    destruct (denotes_elem_part h arr ps e Hden) as [q Hq].
    { apply list_elem_of_lookup. by exists i. }
    rewrite Hq. f_equal. apply write_after_alloc_old; [done|].
    intros ->. subst elems. unfold Store.readArray, Store.readPart in *.
    destruct (h !! arr) as [[]|]; by simplify_eq. }
  destruct (stepUpdate (ps !! pred (length ps)) newPart) as [p|p|]; simpl.
  - (* currentParts[lastPartIndex] = p *)
    repeat split.
    + unfold Store.write. rewrite length_insert, length_app. lia.
    + unfold Store.write. rewrite length_insert, length_app. lia.
    + intros l Hl. rewrite write_after_alloc_lookup by lia. by apply Hframe.
    + unfold denotes, Store.contents. rewrite write_after_alloc_array by done.
      change (map ?f) with (fmap (M:=list) f).
      rewrite list_fmap_insert, Hparts, write_after_alloc_new by done.
      by rewrite <- (denotes_length h arr ps Hden), list_fmap_insert.
    + intros i l. rewrite write_after_alloc_array by done.
      destruct (decide (i = pred (length ps))) as [->|Hi].
      * intros Hl Hlt. destruct (decide (pred (length ps) < length elems)) as [Hin|Hout].
        -- rewrite list_lookup_insert_eq in Hl by done. simplify_eq. lia.
        -- rewrite list_insert_ge in Hl by lia. by apply Hold.
      * rewrite list_lookup_insert_ne by done. apply Hold.
  - (* currentParts.push(p) *)
    repeat split.
    + unfold Store.write. rewrite length_insert, length_app. lia.
    + unfold Store.write. rewrite length_insert, length_app. lia.
    + intros l Hl. rewrite write_after_alloc_lookup by lia. by apply Hframe.
    + unfold denotes, Store.contents. rewrite write_after_alloc_array by done.
      change (map ?f) with (fmap (M:=list) f).
      rewrite !fmap_app, Hparts. simpl. by rewrite write_after_alloc_new.
    + intros i l. rewrite write_after_alloc_array by done.
      intros Hl Hlt. destruct (decide (i < length elems)) as [Hin|Hout].
      * rewrite lookup_app_l in Hl by done. by apply Hold.
      * rewrite lookup_app_r in Hl by lia.
        destruct (i - length elems) as [|k]; simpl in Hl; [simplify_eq; lia|].
        by rewrite lookup_nil in Hl.
  - (* no branch taken *)
    done.
Qed.

Lemma store_loop_inv newParts : ∀ h ps,
  loopInv h0 elems0 arr h ps →
  loopInv h0 elems0 arr
    (fold_left (fun h newPart => Store.reduceStep arr newPart h) newParts h)
    (reduceParts ps newParts).
Proof.
  induction newParts as [|newPart rest IH]; intros h ps Hinv; [done|].
  simpl. apply IH. by apply store_reduceStep_inv.
Qed.

End StoreLoop.

(** C7: the reducer does not mutate its input. Run on a store in which
    [lastMsg.parts] is an array denoting the sequence [ps], the loop leaves
    every object that existed before as it was (the array and every part),
    so the input still denotes [ps]; the array it returns is a new object
    denoting the reduced sequence; and a reference in the result that
    leads to an object from before is the input's reference at the same
    index, so every element the loop wrote is a newly built part. *)
Theorem reducer_does_not_mutate (h : Store.Heap) (lastMsgParts : Store.loc)
    (elems0 : list Store.loc) (ps newParts : list Part) :
  h !! lastMsgParts = Some (Store.ArrayObj elems0) →
  denotes h lastMsgParts ps →
  let currentParts := (Store.reduceParts lastMsgParts newParts h).1 in
  let h' := (Store.reduceParts lastMsgParts newParts h).2 in
  (∀ l, l < length h → h' !! l = h !! l) ∧
  denotes h' lastMsgParts ps ∧
  denotes h' currentParts (reduceParts ps newParts) ∧
  length h ≤ currentParts ∧
  (∀ i l, Store.readArray h' currentParts !! i = Some l → l < length h →
          elems0 !! i = Some l).
Proof.
  intros Harr Hden. unfold Store.reduceParts, Store.alloc. simpl.
  assert (Helems : Store.readArray h lastMsgParts = elems0)
    by (unfold Store.readArray; by rewrite Harr).
  rewrite Helems.
  set (h1 := h ++ [Store.ArrayObj elems0]).
  assert (Hnew : Store.readArray h1 (length h) = elems0).
  { unfold Store.readArray, h1. rewrite lookup_app_r by lia. by rewrite Nat.sub_diag. }
  assert (Hinit : loopInv h elems0 (length h) h1 ps).
  { repeat split.
    - unfold h1. rewrite length_app. simpl. lia.
    - unfold h1. rewrite length_app. lia.
    - intros l Hl. unfold h1. by apply lookup_app_l.
    - unfold denotes, Store.contents. rewrite Hnew, <- Hden.
      unfold Store.contents. rewrite Helems.
      apply list_eq. intros i.
      change (map ?f) with (fmap (M:=list) f). rewrite !list_lookup_fmap.
      destruct (elems0 !! i) as [e|] eqn:He; [simpl|done].
      destruct (denotes_elem_part h lastMsgParts ps e Hden) as [q Hq].
      { rewrite Helems. apply list_elem_of_lookup. by exists i. }
      rewrite Hq. f_equal. unfold Store.readPart, h1.
      rewrite lookup_app_l by (by eapply readPart_lt). exact Hq.
    - intros i l Hl _. by rewrite Hnew in Hl. }
  pose proof (store_loop_inv h elems0 (length h) (le_n _) newParts h1 ps Hinit)
    as (_ & _ & Hframe & Hres & Hold).
  repeat split; [done| |done|done|done].
  unfold denotes, Store.contents, Store.readArray, Store.readPart in *.
  rewrite <- Hden.
  rewrite Hframe by (by eapply lookup_lt_Some).
  apply list_eq. intros i.
  change (map ?f) with (fmap (M:=list) f). rewrite !list_lookup_fmap.
  rewrite Harr.
  destruct (elems0 !! i) as [e|] eqn:He; [simpl|done]. f_equal.
  destruct (denotes_elem_part h lastMsgParts ps e) as [q Hq].
  { unfold denotes, Store.contents, Store.readArray, Store.readPart. by rewrite Hden. }
  { unfold Store.readArray. rewrite Harr. apply list_elem_of_lookup. by exists i. }
  by rewrite Hframe by (by eapply readPart_lt).
Qed.

Lemma reducer_does_not_mutate_witness :
  let h := [Store.ArrayObj [1]; Store.PartObj (textOnly "Hello")] in
  let newParts := [textOnly " world"; textPart (Some "hm") (Some (ThoughtBool true))] in
  let currentParts := (Store.reduceParts 0 newParts h).1 in
  let h' := (Store.reduceParts 0 newParts h).2 in
  (h !! 0 = Some (Store.ArrayObj [1]) ∧ denotes h 0 [textOnly "Hello"]) ∧
  (∀ l, l < length h → h' !! l = h !! l) ∧
  denotes h' 0 [textOnly "Hello"] ∧
  denotes h' currentParts (reduceParts [textOnly "Hello"] newParts) ∧
  length h ≤ currentParts ∧
  (∀ i l, Store.readArray h' currentParts !! i = Some l → l < length h →
          [1] !! i = Some l).
Proof.
  split.
  - split; reflexivity.
  - apply (reducer_does_not_mutate
             [Store.ArrayObj [1]; Store.PartObj (textOnly "Hello")] 0 [1]
             [textOnly "Hello"]
             [textOnly " world"; textPart (Some "hm") (Some (ThoughtBool true))]);
      reflexivity.
Defined.

(** ** C8: the history sent upstream *)

Lemma hasKeys_cleanPart p : hasKeys (cleanPart p) = hasContent p.
Proof.
  unfold hasKeys, keyCount, hasContent, cleanPart. simpl.
  destruct (JS.truthy_str (text p)) eqn:Ht.
  - apply truthy_str_true in Ht as (s & -> & _). simpl.
    by destruct (executableCode p), (codeExecutionResult p), (inlineData p),
               (functionCall p), (functionResponse p).
  - by destruct (executableCode p), (codeExecutionResult p), (inlineData p),
               (functionCall p), (functionResponse p).
Qed.

Lemma cleanParts_filter ps :
  cleanParts ps = map cleanPart (List.filter hasContent ps).
Proof.
  unfold cleanParts. induction ps as [|p ps IH]; [done|].
  simpl. rewrite hasKeys_cleanPart.
  destruct (hasContent p); simpl; by rewrite IH.
Qed.

Lemma hasContent_cleanPart p : hasContent (cleanPart p) = hasContent p.
Proof.
  unfold hasContent, cleanPart. simpl.
  destruct (JS.truthy_str (text p)) eqn:Ht; [by rewrite Ht | done].
Qed.

Lemma cleanPart_stripped p : strippedOf p (cleanPart p).
Proof. by repeat split. Qed.

Lemma cleanPart_text_nonempty p : text (cleanPart p) ≠ Some "".
Proof.
  simpl. destruct (JS.truthy_str (text p)) eqn:Ht; [|done].
  apply truthy_str_true in Ht as (s & -> & Hne). congruence.
Qed.

(** C8: serializing a transcript into the upstream history keeps the turns
    in order with their roles; the parts of a turn are the message's parts
    that have content, in order, each stripped of the thought flag (and
    nothing else); a part left with no content, such as one with an empty
    text only, is omitted; and a turn that would have no part gets the
    single part whose text is one space. *)
Theorem history_serialization (transcript : list ChatMessage) :
  Forall2
    (fun msg entry =>
       content_role entry = Some (role msg) ∧
       ∃ ps, content_parts entry = Some ps ∧
         ps ≠ [] ∧
         Forall (fun q => thought q = None ∧ text q ≠ Some "") ps ∧
         (List.filter hasContent (parts msg) = [] →
            ps = [{| text := Some " "; thought := None; executableCode := None;
                     codeExecutionResult := None; inlineData := None;
                     functionCall := None; functionResponse := None |}]) ∧
         (List.filter hasContent (parts msg) ≠ [] →
            Forall2 strippedOf (List.filter hasContent (parts msg)) ps ∧
            Forall (fun q => hasContent q = true) ps))
    transcript (buildHistory transcript).
Proof.
  unfold buildHistory. apply Forall2_fmap_r, Forall_Forall2_diag, Forall_forall.
  intros msg _. unfold historyEntry. simpl. split; [done|].
  rewrite cleanParts_filter.
  destruct (List.filter hasContent (parts msg)) as [|p kept] eqn:Hf.
  - exists [spacePart]. simpl. repeat split; try done.
    by repeat constructor.
  - exists (map cleanPart (p :: kept)). split; [done|]. split; [done|]. split; [|split].
    + apply Forall_forall. intros q (p' & -> & _)%list_elem_of_fmap.
      split; [done | apply cleanPart_text_nonempty].
    + done.
    + intros _. split.
      * apply Forall2_fmap_r, Forall_Forall2_diag, Forall_forall.
        intros p' _. apply cleanPart_stripped.
      * apply Forall_forall. intros q (p' & -> & Hin)%list_elem_of_fmap.
        assert (Hin' : p' ∈ List.filter hasContent (parts msg)) by (by rewrite Hf).
        apply list_elem_of_In, filter_In in Hin' as [_ Hc].
        by rewrite hasContent_cleanPart.
Qed.

(** ** Running the controller *)

Lemma reduceParts_app ps a b :
  reduceParts (reduceParts ps a) b = reduceParts ps (a ++ b).
Proof. unfold reduceParts. by rewrite fold_left_app. Qed.

(** On a transcript that ends with the model message, the updater rewrites
    that message's parts and nothing else. *)
Lemma applyChunk_last pre m newParts :
  applyChunk (msg_id m) newParts (pre ++ [m]) =
  pre ++ [{| msg_id := msg_id m; role := role m;
             parts := reduceParts (parts m) newParts; timestamp := timestamp m |}].
Proof.
  unfold applyChunk. rewrite last_snoc, Z.eqb_refl. simpl.
  rewrite length_app. simpl.
  replace (pred (length pre + 1)) with (length pre) by lia.
  by rewrite take_app_length.
Qed.

(** The stream loop, from a transcript that ends with the model message. *)
Lemma forAwait_applyChunk chunks ending : ∀ pre m loading sent,
  forAwait chunks ending
    (fun chunk => setMessages (applyChunk (msg_id m) (chunkParts chunk)))
    {| messages := pre ++ [m]; isLoading := loading; requestsSent := sent |} =
  ({| messages :=
        pre ++ [{| msg_id := msg_id m; role := role m;
                   parts := reduceParts (parts m) (concat (map chunkParts chunks));
                   timestamp := timestamp m |}];
      isLoading := loading; requestsSent := sent |},
   match ending with Completed => Returned tt | Aborted => Thrown end).
Proof.
  induction chunks as [|chunk rest IH]; intros pre m loading sent.
  - simpl. destruct m. by destruct ending.
  - simpl. unfold bind, setMessages at 1. simpl.
    rewrite applyChunk_last.
    set (m' := {| msg_id := msg_id m; role := role m;
                  parts := reduceParts (parts m) (chunkParts chunk);
                  timestamp := timestamp m |}).
    change (msg_id m) with (msg_id m') at 1.
    rewrite (IH pre m' loading sent). simpl. by rewrite reduceParts_app.
Qed.

(** The updater is only ever run on a transcript that has a last
    message: the one the loop starts from ends with the model message, and
    every step keeps it so. *)
Lemma applyChunk_reached_nonempty mid newParts prev :
  prev ≠ [] → applyChunk mid newParts prev ≠ [].
Proof.
  intros Hne. unfold applyChunk.
  destruct (last prev) as [lastMsg|]; [|done].
  destruct (negb (msg_id lastMsg =? mid)%Z); [done|].
  by destruct (take (pred (length prev)) prev).
Qed.

Section ControllerRun.

Variable dataUrlMatch : string -> option (string * string).
Variable chatApi : nat -> list Content -> list Part -> Upstream.

Abbreviation run := (handleSendMessage dataUrlMatch chatApi).
Abbreviation userMsg := (userMessageOf dataUrlMatch).
Abbreviation answerTo := (answerOf dataUrlMatch chatApi).

(** The [try] block, by the answer of the API. *)
Lemma tryBlock_run clock text image s0 :
  tryBlock dataUrlMatch chatApi clock (messages s0) text image
    (atTry dataUrlMatch clock text image s0) =
  let base := messages s0 ++ [userMsg clock text image] in
  match answerTo text image s0 with
  | Rejected =>
      ({| messages := base; isLoading := true; requestsSent := S (requestsSent s0) |},
       Thrown)
  | Streaming chunks ending =>
      ({| messages := base ++ [streamedMessageOf clock chunks];
          isLoading := true; requestsSent := S (requestsSent s0) |},
       match ending with Completed => Returned tt | Aborted => Thrown end)
  end.
Proof.
  unfold tryBlock, sendMessageStream, answerOf, atTry, callApi, bind. simpl.
  destruct (chatApi _ _ _) as [|chunks ending]; [done|].
  simpl.
  exact (forAwait_applyChunk chunks ending (messages s0 ++ [userMsg clock text image])
           (modelMessageOf clock) true (S (requestsSent s0))).
Qed.

(** The whole call, by the answer of the API. *)
Lemma handleSendMessage_run clock text image s0 :
  run clock text image s0 =
  let base := messages s0 ++ [userMsg clock text image] in
  ({| messages :=
        match answerTo text image s0 with
        | Rejected => base ++ [errorMessageOf clock]
        | Streaming chunks Completed => base ++ [streamedMessageOf clock chunks]
        | Streaming chunks Aborted =>
            (base ++ [streamedMessageOf clock chunks]) ++ [errorMessageOf clock]
        end;
      isLoading := false; requestsSent := S (requestsSent s0) |},
   Returned tt).
Proof.
  unfold handleSendMessage, bind at 1 2. simpl.
  unfold tryCatchFinally.
  change {| messages := messages s0 ++ [userMsg clock text image];
            isLoading := true; requestsSent := requestsSent s0 |}
    with (atTry dataUrlMatch clock text image s0).
  rewrite tryBlock_run. simpl.
  destruct (answerTo text image s0) as [|chunks [|]]; reflexivity.
Qed.

(** ** C9: an upstream failure *)

(** C9: whenever the upstream stream fails, the [try] block stops with an
    exception in some session state; the call then ends with the
    transcript of that state followed by exactly one model message whose
    only part is the fixed apology, with the input surface enabled again,
    and having made one request to the API and no other. What was
    streamed before the failure is in the transcript at the error, and so
    is kept. *)
Theorem stream_failure_handling clock text image s0 :
  upstreamFailed (answerTo text image s0) →
  ∃ s_err,
    tryBlock dataUrlMatch chatApi clock (messages s0) text image
      (atTry dataUrlMatch clock text image s0) = (s_err, Thrown) ∧
    run clock text image s0 =
      ({| messages := messages s_err ++ [errorMessageOf clock];
          isLoading := false; requestsSent := S (requestsSent s0) |}, Returned tt) ∧
    role (errorMessageOf clock) = model ∧
    parts (errorMessageOf clock) =
      [{| text := Some "Sorry, I encountered an error. Please try again.";
          thought := None; executableCode := None; codeExecutionResult := None;
          inlineData := None; functionCall := None; functionResponse := None |}] ∧
    messages s_err `prefix_of` messages (run clock text image s0).1 ∧
    length (messages (run clock text image s0).1) = S (length (messages s_err)) ∧
    (messages s0 ++ [userMsg clock text image]) `prefix_of` messages s_err ∧
    (∀ chunks, answerTo text image s0 = Streaming chunks Aborted →
       messages s_err =
         (messages s0 ++ [userMsg clock text image]) ++ [streamedMessageOf clock chunks]) ∧
    requestsSent s_err = S (requestsSent s0) ∧
    isLoading (run clock text image s0).1 = false.
Proof.
  intros Hfail. rewrite handleSendMessage_run, tryBlock_run. simpl.
  destruct Hfail as [Hrej | [chunks Habort]].
  - rewrite Hrej. eexists. split; [reflexivity|]. simpl.
    repeat split; try done.
    + by apply prefix_app_r.
    + rewrite !length_app. simpl. lia.
  - rewrite Habort. eexists. split; [reflexivity|]. simpl.
    repeat split; try done.
    + by apply prefix_app_r.
    + rewrite !length_app. simpl. lia.
    + by apply prefix_app_r.
    + intros chunks' Heq. by simplify_eq.
Qed.

(** ** C3: parts of committed messages *)

(** C3, amended: every user message and every synthetic error message is
    appended with a non-empty parts sequence; a user message with no
    content is represented by the single part whose text is one space. The
    model message is appended with an empty parts sequence, and of the
    messages a call leaves in the transcript only that placeholder, still
    as it was created, can have no parts. *)
Theorem committed_messages_parts clock text image s0 :
  parts (userMsg clock text image) ≠ [] ∧
  (JS.truthy_str (Some text) = false →
   JS.truthy_str image = false ∨ dataUrlMatch (JS.or_empty image) = None →
   parts (userMsg clock text image) =
     [{| text := Some " "; thought := None; executableCode := None;
         codeExecutionResult := None; inlineData := None;
         functionCall := None; functionResponse := None |}]) ∧
  parts (errorMessageOf clock) =
    [{| text := Some "Sorry, I encountered an error. Please try again.";
        thought := None; executableCode := None; codeExecutionResult := None;
        inlineData := None; functionCall := None; functionResponse := None |}] ∧
  parts (modelMessageOf clock) = [] ∧
  ∃ appended,
    messages (run clock text image s0).1 = messages s0 ++ appended ∧
    ∀ m, m ∈ appended → parts m = [] → m = modelMessageOf clock.
Proof.
  split; [|split; [|split; [|split]]].
  - simpl. unfold buildUserParts.
    destruct (JS.truthy_str (Some text)), (JS.truthy_str image);
      try destruct (dataUrlMatch (JS.or_empty image)) as [[m1 m2]|]; done.
  - intros Ht Hi. simpl. unfold buildUserParts. rewrite Ht.
    destruct Hi as [-> | Hi]; [done|]. rewrite Hi. by destruct (JS.truthy_str image).
  - done.
  - done.
  - rewrite handleSendMessage_run. simpl.
    assert (Huser : parts (userMsg clock text image) ≠ []).
    { simpl. unfold buildUserParts.
      destruct (JS.truthy_str (Some text)), (JS.truthy_str image);
        try destruct (dataUrlMatch (JS.or_empty image)) as [[m1 m2]|]; done. }
    assert (Hstreamed : ∀ chunks, parts (streamedMessageOf clock chunks) = [] →
                                  streamedMessageOf clock chunks = modelMessageOf clock).
    { intros chunks. unfold streamedMessageOf, modelMessageOf. simpl. by intros ->. }
    destruct (answerTo text image s0) as [|chunks [|]]; eexists;
      (split; [rewrite <- ?app_assoc; reflexivity|]);
      intros m Hm Hempty; simpl in Hm;
      repeat (apply elem_of_cons in Hm as [-> | Hm]); try (by apply elem_of_nil in Hm);
      try done; by apply Hstreamed.
Qed.

End ControllerRun.

(** C9 at a stream that aborts after one chunk. *)
Lemma stream_failure_handling_witness :
  upstreamFailed (answerOf noDataUrl abortingApi "hi" None session0) ∧
  ∃ s_err,
    tryBlock noDataUrl abortingApi clock0 (messages session0) "hi" None
      (atTry noDataUrl clock0 "hi" None session0) = (s_err, Thrown) ∧
    handleSendMessage noDataUrl abortingApi clock0 "hi" None session0 =
      ({| messages := messages s_err ++ [errorMessageOf clock0];
          isLoading := false; requestsSent := S (requestsSent session0) |}, Returned tt) ∧
    role (errorMessageOf clock0) = model ∧
    parts (errorMessageOf clock0) =
      [{| text := Some "Sorry, I encountered an error. Please try again.";
          thought := None; executableCode := None; codeExecutionResult := None;
          inlineData := None; functionCall := None; functionResponse := None |}] ∧
    messages s_err `prefix_of`
      messages (handleSendMessage noDataUrl abortingApi clock0 "hi" None session0).1 ∧
    length (messages (handleSendMessage noDataUrl abortingApi clock0 "hi" None session0).1)
      = S (length (messages s_err)) ∧
    (messages session0 ++ [userMessageOf noDataUrl clock0 "hi" None])
      `prefix_of` messages s_err ∧
    (∀ chunks, answerOf noDataUrl abortingApi "hi" None session0 = Streaming chunks Aborted →
       messages s_err =
         (messages session0 ++ [userMessageOf noDataUrl clock0 "hi" None])
           ++ [streamedMessageOf clock0 chunks]) ∧
    requestsSent s_err = S (requestsSent session0) ∧
    isLoading (handleSendMessage noDataUrl abortingApi clock0 "hi" None session0).1 = false.
Proof.
  split.
  - right. eexists. reflexivity.
  - apply (stream_failure_handling noDataUrl abortingApi clock0 "hi" None session0).
    right. eexists. reflexivity.
Defined.

(** C3 as stated fails: after a call whose stream brings no part, the
    transcript holds the model message with an empty parts sequence. *)
Lemma placeholder_committed_empty :
  let s' := (handleSendMessage noDataUrl silentApi clock0 "hi" None session0).1 in
  messages s' !! 1 = Some (modelMessageOf clock0) ∧
  parts (modelMessageOf clock0) = [] ∧
  ¬ Forall (fun m => parts m ≠ []) (messages s').
Proof.
  simpl. split; [reflexivity|]. split; [reflexivity|].
  intros H. apply Forall_cons in H as [_ H]. apply Forall_cons in H as [H _].
  by apply H.
Qed.

(** ** C10: the priority order of the live renderer *)

Lemma isThoughtLive_flag p : isThoughtLive p = thoughtFlag p.
Proof.
  unfold isThoughtLive, thoughtFlag, JS.truthy_thought.
  destruct (thought p) as [[b|s]|]; [done| |done]. by destruct s.
Qed.

(** [H] says no kind is carried, and [E] that [k] is. *)
Ltac contradict_carried H k E :=
  specialize (H k); unfold carries in H; rewrite E in H; discriminate.

(** C10: whatever content fields a part carries, the live renderer shows
    one node, of the first kind in the order thought, executableCode,
    codeExecutionResult, text, inlineData that the part carries. So a part
    carrying text and inlineData (and nothing earlier in the order) is
    shown as its text only, and a part carrying none of the five is shown
    as nothing. *)
Theorem live_renderer_priority (isStreaming : bool) (partCount : nat)
    (p : Part) (index : nat) :
  kindShown (renderPart isStreaming partCount p index)
    = List.find (carries p) priorityOrder ∧
  (carries p KThought = false ∧ carries p KExecutableCode = false ∧
   carries p KCodeExecutionResult = false ∧
   carries p KText = true ∧ carries p KInlineData = true →
     renderPart isStreaming partCount p index = Prose (JS.or_empty (text p))) ∧
  ((∀ k, carries p k = false) →
     renderPart isStreaming partCount p index = Nothing).
Proof.
  unfold renderPart. rewrite isThoughtLive_flag. simpl.
  destruct (thoughtFlag p) eqn:Hth.
  { split; [done|]. split; [by intros (? & _) | intros H; contradict_carried H KThought Hth]. }
  destruct (executableCode p) as [e|] eqn:He; simpl.
  { split; [done|].
    split; [by intros (_ & ? & _) | intros H; contradict_carried H KExecutableCode He]. }
  destruct (codeExecutionResult p) as [r|] eqn:Hr; simpl.
  { split; [done|].
    split; [by intros (_ & _ & ? & _) | intros H; contradict_carried H KCodeExecutionResult Hr]. }
  destruct (JS.truthy_str (text p)) eqn:Ht; simpl.
  { split; [done|]. split; [done | intros H; contradict_carried H KText Ht]. }
  destruct (inlineData p) as [b|] eqn:Hb; simpl.
  { split; [done|].
    split; [by intros (_ & _ & _ & ? & _) | intros H; contradict_carried H KInlineData Hb]. }
  split; [done|]. split; [by intros (_ & _ & _ & ? & _) | done].
Qed.

(** ** C4: the live view against the export *)


Lemma emptyThought_export p :
  thoughtFlag p = true →
  negb (JS.truthy_str (match thought p with Some (ThoughtStr s) => Some s | _ => text p end))
  = emptyThought p.
Proof.
  intros Hth. unfold emptyThought, thoughtContent. rewrite Hth. simpl.
  destruct (thought p) as [[b|s]|]; simpl.
  - destruct (text p); simpl; [by rewrite Bool.negb_involutive | done].
  - by rewrite Bool.negb_involutive.
  - destruct (text p); simpl; [by rewrite Bool.negb_involutive | done].
Qed.

(** The dynamic title only shows on the last part of a message that is
    being streamed. *)
Lemma renderPart_not_last isStreaming partCount p index :
  isStreaming = false ∨ S index ≠ partCount →
  renderPart isStreaming partCount p index = renderPart false partCount p index.
Proof.
  intros [-> | Hne]; [done|]. unfold renderPart.
  replace (Z.of_nat index =? Z.of_nat partCount - 1)%Z with false
    by (symmetry; apply Z.eqb_neq; lia).
  by rewrite Bool.andb_false_r.
Qed.


(** ** Transcripts the controller builds *)

(** Every part the reducer writes is shown alike by both renderers'
    orders: it never carries a text together with inline data. *)
Lemma stepUpdate_written lastPart newPart :
  match stepUpdate lastPart newPart with
  | Assign p | Push p => textAndImage p = false
  | Keep => True
  end.
Proof.
  unfold stepUpdate, textAndImage.
  destruct (JS.truthy_str (text newPart)).
  - destruct lastPart as [lp|]; [|simpl; by rewrite !Bool.andb_false_r].
    destruct (isMergeableText lp newPart) eqn:Hm; [|simpl; by rewrite !Bool.andb_false_r].
    unfold isMergeableText in Hm. simpl.
    destruct (inlineData lp); [|by rewrite !Bool.andb_false_r].
    simpl in Hm. by rewrite !Bool.andb_false_r in Hm.
  - destruct (executableCode newPart) as [ne|].
    { destruct lastPart as [lp|]; [|done].
      destruct (executableCode lp) as [le|]; [|done].
      destruct (JS.strict_eq (language le) (language ne)); [|done].
      simpl. by rewrite Bool.andb_false_r. }
    destruct (codeExecutionResult newPart); [done|].
    destruct (inlineData newPart); [done|].
    destruct (JS.truthy_thought (thought newPart)) eqn:Ht; [|done].
    simpl. unfold thoughtFlag. simpl. by rewrite Ht.
Qed.

Lemma reduceStep_no_textAndImage cur newPart :
  Forall (fun p => textAndImage p = false) cur →
  Forall (fun p => textAndImage p = false) (reduceStep cur newPart).
Proof.
  intros Hcur. unfold reduceStep.
  pose proof (stepUpdate_written (cur !! pred (length cur)) newPart) as Hw.
  destruct (stepUpdate _ _) as [p|p|]; [|by apply Forall_app_2; [|constructor]|done].
  destruct (decide (pred (length cur) < length cur)) as [Hin|Hout].
  - by apply Forall_insert.
  - by rewrite list_insert_ge by lia.
Qed.

Lemma reduceParts_no_textAndImage incoming : ∀ cur,
  Forall (fun p => textAndImage p = false) cur →
  Forall (fun p => textAndImage p = false) (reduceParts cur incoming).
Proof.
  induction incoming as [|newPart rest IH]; intros cur Hcur; [done|].
  apply IH. by apply reduceStep_no_textAndImage.
Qed.

Lemma buildUserParts_no_textAndImage dataUrlMatch text image :
  Forall (fun p => textAndImage p = false) (buildUserParts dataUrlMatch text image).
Proof.
  unfold buildUserParts.
  destruct (JS.truthy_str (Some text)), (JS.truthy_str image);
    try destruct (dataUrlMatch (JS.or_empty image)) as [[m1 m2]|]; simpl;
    repeat first [apply Forall_nil_2 | apply Forall_cons_2];
    unfold textAndImage; simpl; by rewrite ?Bool.andb_false_r.
Qed.

(** A call of [handleSendMessage] keeps the transcript free of parts that
    carry a text together with inline data, whatever the API streams. *)
Lemma handleSendMessage_no_textAndImage dataUrlMatch chatApi clock text image s0 :
  Forall (fun m => Forall (fun p => textAndImage p = false) (parts m)) (messages s0) →
  Forall (fun m => Forall (fun p => textAndImage p = false) (parts m))
    (messages (handleSendMessage dataUrlMatch chatApi clock text image s0).1).
Proof.
  intros H0. rewrite handleSendMessage_run. simpl.
  assert (Hu : Forall (fun p => textAndImage p = false)
                 (parts (userMessageOf dataUrlMatch clock text image)))
    by apply buildUserParts_no_textAndImage.
  assert (He : Forall (fun p => textAndImage p = false) (parts (errorMessageOf clock)))
    by (by repeat constructor).
  assert (Hs : ∀ chunks, Forall (fun p => textAndImage p = false)
                           (parts (streamedMessageOf clock chunks)))
    by (intros chunks; by apply reduceParts_no_textAndImage).
  destruct (answerOf dataUrlMatch chatApi text image s0) as [|chunks [|]];
    repeat (apply Forall_app_2 || apply Forall_cons_2 || apply Forall_nil_2); auto.
Qed.

(** ** The scenarios of the specification *)

Example scenario_hello :
  reduceParts [] [textOnly "Hello"] = [textOnly "Hello"].
Proof. reflexivity. Qed.

Example scenario_hello_world :
  reduceParts [textOnly "Hello"] [textOnly " world"] = [textOnly "Hello world"].
Proof. reflexivity. Qed.

Example scenario_thought_then_answer :
  reduceParts [textPart (Some "thinking") (Some (ThoughtBool true))]
              [textPart (Some "answer") (Some (ThoughtBool false))]
  = [textPart (Some "thinking") (Some (ThoughtBool true));
     textPart (Some "answer") (Some (ThoughtBool false))].
Proof. reflexivity. Qed.

Example scenario_flag_splits_run :
  length (reduceParts [] [textPart (Some "a") (Some (ThoughtBool false));
                          textPart (Some "b") (Some (ThoughtBool true));
                          textPart (Some "c") (Some (ThoughtBool false))]) = 3.
Proof. reflexivity. Qed.

Example scenario_languages :
  reduceParts []
    [codePart {| language := Some "python"; code := Some "a = 1" |};
     codePart {| language := Some "python"; code := Some "; b = 2" |};
     codePart {| language := Some "javascript"; code := Some "let c" |}]
  = [codePart {| language := Some "python"; code := Some "a = 1; b = 2" |};
     codePart {| language := Some "javascript"; code := Some "let c" |}].
Proof. reflexivity. Qed.

Example scenario_empty_batch cur : reduceParts cur [] = cur.
Proof. reflexivity. Qed.

Example scenario_bold_titles :
  boldMatches "a **Step 1** and ***x** then **Plan B**" = ["Step 1"; "x"; "Plan B"].
Proof. reflexivity. Qed.

Example scenario_streaming_title :
  renderPart true 1 (textPart (Some "**Plan** first") (Some (ThoughtBool true))) 0
  = Collapsible "Thinking - Plan" Brain None (MarkdownBody "**Plan** first").
Proof. reflexivity. Qed.

Lemma append_empty_r (s : string) : s +:+ "" = s.
Proof.
  induction s as [|c s IH]; [done|].
  change (String c (s +:+ "") = String c s). by rewrite IH.
Qed.

Lemma append_assoc (s1 s2 s3 : string) : (s1 +:+ s2) +:+ s3 = s1 +:+ (s2 +:+ s3).
Proof.
  induction s1 as [|c s1 IH]; [done|].
  change (String c ((s1 +:+ s2) +:+ s3) = String c (s1 +:+ (s2 +:+ s3))).
  by rewrite IH.
Qed.

(** A run of non-empty text fragments with one thought flag, arriving
    after a text element with that flag, ends as one element holding the
    concatenation. *)
Lemma same_flag_run_merges th (texts : list string) : ∀ t,
  Forall (fun s => s ≠ "") texts →
  reduceParts [textPart (Some t) th] (map (fun s => textPart (Some s) th) texts)
  = [textPart (Some (t +:+ String.concat "" texts)) th].
Proof.
  induction texts as [|s rest IH]; intros t Hne.
  - simpl. by rewrite append_empty_r.
  - apply Forall_cons in Hne as [Hs Hrest].
    rewrite map_cons.
    change (reduceParts ?c (?x :: ?l)) with (reduceParts (reduceStep c x) l).
    assert (Hstep : reduceStep [textPart (Some t) th] (textPart (Some s) th)
                    = [textPart (Some (t +:+ s)) th]).
    { unfold reduceStep, stepUpdate. simpl.
      apply truthy_str_Some in Hs. simpl in Hs. rewrite Hs.
      unfold isMergeableText. simpl. by rewrite Bool.eqb_reflx. }
    rewrite Hstep, (IH _ Hrest). do 3 f_equal.
    destruct rest as [|s' rest']; simpl.
    + by rewrite !append_empty_r.
    + by rewrite append_assoc.
Qed.

(** * Further properties of the code *)

(** ** The reducer only works at the end of the sequence *)

Lemma butLast_snoc {A} (l : list A) x : butLast (l ++ [x]) = l.
Proof.
  unfold butLast. rewrite length_app. simpl.
  replace (pred (length l + 1)) with (length l) by lia.
  by rewrite take_app_length.
Qed.

Lemma butLast_prefix {A} (l : list A) : butLast l `prefix_of` l.
Proof. unfold butLast. apply prefix_take. Qed.

Lemma butLast_insert_last {A} (l : list A) x :
  butLast (<[pred (length l) := x]> l) = butLast l.
Proof.
  unfold butLast. rewrite length_insert. by rewrite take_insert_ge by lia.
Qed.

Lemma reduceStep_butLast cur f :
  butLast cur `prefix_of` butLast (reduceStep cur f) ∧
  length cur ≤ length (reduceStep cur f) ≤ S (length cur).
Proof.
  unfold reduceStep. destruct (stepUpdate _ _) as [p|p|].
  - rewrite butLast_insert_last, length_insert. split; [done | lia].
  - rewrite butLast_snoc, length_app. simpl. split; [apply butLast_prefix | lia].
  - split; [done | lia].
Qed.

(** Whatever the batch, the reducer leaves every element but the last of
    the current sequence in place at the front of its result, and the
    result has at least as many elements as the current sequence and at
    most one more per incoming fragment. *)
Theorem reducer_keeps_all_but_last (cur incoming : list Part) :
  butLast cur `prefix_of` reduceParts cur incoming ∧
  length cur ≤ length (reduceParts cur incoming) ≤ length cur + length incoming.
Proof.
  assert (H : butLast cur `prefix_of` butLast (reduceParts cur incoming) ∧
              length cur ≤ length (reduceParts cur incoming)
                         ≤ length cur + length incoming).
  { revert cur. induction incoming as [|f rest IH]; intros cur.
    - simpl. split; [done | lia].
    - change (reduceParts cur (f :: rest)) with (reduceParts (reduceStep cur f) rest).
      destruct (reduceStep_butLast cur f) as [Hp Hl].
      destruct (IH (reduceStep cur f)) as [Hp' Hl'].
      split; [by etrans | simpl; lia]. }
  destruct H as [Hp Hl]. split; [|done].
  etrans; [exact Hp | apply butLast_prefix].
Qed.

(** ** No streamed text is lost *)

Lemma allText_app ps qs : allText (ps ++ qs) = allText ps +:+ allText qs.
Proof.
  induction ps as [|p ps IH]; [done|].
  simpl. unfold allText in *. simpl. by rewrite IH, append_assoc.
Qed.

Lemma stepUpdate_text lastPart f :
  match stepUpdate lastPart f with
  | Assign p => ∃ lp, lastPart = Some lp ∧ textOf p = textOf lp +:+ textOf f
  | Push p => textOf p = textOf f
  | Keep => textOf f = ""
  end.
Proof.
  unfold stepUpdate, textOf.
  destruct (JS.truthy_str (text f)) eqn:Ht.
  - apply truthy_str_true in Ht as (s & Hs & _). rewrite Hs.
    destruct lastPart as [lp|]; [|done].
    destruct (isMergeableText lp f); [|done]. by exists lp.
  - rewrite (or_empty_falsy _ Ht).
    destruct (executableCode f) as [ne|].
    { destruct lastPart as [lp|]; [|done].
      destruct (executableCode lp) as [le|]; [|done].
      destruct (JS.strict_eq (language le) (language ne)); [|done].
      exists lp. split; [done|]. simpl. by rewrite append_empty_r. }
    destruct (codeExecutionResult f); [done|].
    destruct (inlineData f); [done|].
    by destruct (JS.truthy_thought (thought f)).
Qed.

Lemma reduceStep_allText cur f :
  allText (reduceStep cur f) = allText cur +:+ textOf f.
Proof.
  unfold reduceStep. rewrite last_pred_length.
  pose proof (stepUpdate_text (last cur) f) as H.
  destruct (stepUpdate (last cur) f) as [p|p|].
  - destruct H as (lp & Hl & Hp).
    destruct (last_Some_snoc _ _ Hl) as [init ->].
    rewrite insert_last_snoc, !allText_app.
    unfold allText at 2 4. simpl. by rewrite Hp, !append_empty_r, append_assoc.
  - rewrite allText_app. unfold allText at 2. simpl. by rewrite H, append_empty_r.
  - by rewrite H, append_empty_r.
Qed.

(** The text of the result, read in order, is the text of the current
    sequence followed by the text of the incoming fragments: merging and
    appending neither lose, repeat nor reorder streamed text, and the
    fragments that are dropped carry none. *)
Theorem reducer_preserves_text (cur incoming : list Part) :
  allText (reduceParts cur incoming) = allText cur +:+ allText incoming.
Proof.
  revert cur. induction incoming as [|f rest IH]; intros cur.
  - change (reduceParts cur []) with cur. change (allText []) with "".
    by rewrite append_empty_r.
  - change (reduceParts cur (f :: rest)) with (reduceParts (reduceStep cur f) rest).
    rewrite IH, reduceStep_allText, append_assoc. done.
Qed.

(** ** Every part of the transcript has one kind *)

Lemma stepUpdate_wellTagged lastPart f :
  (∀ lp, lastPart = Some lp → wellTagged lp) →
  match stepUpdate lastPart f with
  | Assign p | Push p => wellTagged p
  | Keep => True
  end.
Proof.
  intros Hlast. unfold stepUpdate.
  destruct (JS.truthy_str (text f)) eqn:Ht.
  - apply truthy_str_true in Ht as (s & Hs & _). rewrite Hs.
    assert (Hpush : wellTagged (textPart (Some s) (thought f)))
      by (by repeat split; eauto).
    destruct lastPart as [lp|]; [|done].
    destruct (isMergeableText lp f) eqn:Hm; [|done].
    destruct (Hlast lp eq_refl) as (Hc & _ & Hfc & Hfr).
    unfold isMergeableText in Hm. unfold wellTagged, fieldCount in *. simpl.
    destruct (executableCode lp), (codeExecutionResult lp), (inlineData lp);
      simpl in *; rewrite ?Bool.andb_false_r in Hm; try discriminate.
    by repeat split; eauto.
  - destruct (executableCode f) as [ne|].
    { destruct lastPart as [lp|]; [|by repeat split].
      destruct (executableCode lp) as [le|] eqn:Hle; [|by repeat split].
      destruct (JS.strict_eq (language le) (language ne)); [|by repeat split].
      destruct (Hlast lp eq_refl) as (Hc & Hth & Hfc & Hfr).
      unfold wellTagged, fieldCount in *. simpl. rewrite Hle in Hc. simpl in Hc.
      by repeat split. }
    destruct (codeExecutionResult f); [by repeat split|].
    destruct (inlineData f); [by repeat split|].
    destruct (JS.truthy_thought (thought f)); [|done].
    by repeat split; eauto.
Qed.

Lemma reduceStep_wellTagged cur f :
  Forall wellTagged cur → Forall wellTagged (reduceStep cur f).
Proof.
  intros Hcur. unfold reduceStep.
  pose proof (stepUpdate_wellTagged (cur !! pred (length cur)) f) as Hw.
  assert (Hlast : ∀ lp, cur !! pred (length cur) = Some lp → wellTagged lp).
  { intros lp Hlp. eapply Forall_lookup_1; eauto. }
  specialize (Hw Hlast).
  destruct (stepUpdate _ _) as [p|p|]; [|by apply Forall_app_2; [|constructor]|done].
  destruct (decide (pred (length cur) < length cur)) as [Hin|Hout].
  - by apply Forall_insert.
  - by rewrite list_insert_ge by lia.
Qed.

Lemma reduceParts_wellTagged incoming : ∀ cur,
  Forall wellTagged cur → Forall wellTagged (reduceParts cur incoming).
Proof.
  induction incoming as [|f rest IH]; intros cur Hcur; [done|].
  apply IH. by apply reduceStep_wellTagged.
Qed.

Lemma buildUserParts_wellTagged dataUrlMatch text image :
  Forall wellTagged (buildUserParts dataUrlMatch text image).
Proof.
  unfold buildUserParts.
  destruct (JS.truthy_str (Some text)), (JS.truthy_str image);
    try destruct (dataUrlMatch (JS.or_empty image)) as [[m1 m2]|]; simpl;
    repeat first [apply Forall_nil_2 | apply Forall_cons_2];
    by repeat split; eauto.
Qed.

(** Whatever fields the streamed fragments carry, a send only adds
    messages whose parts each have exactly one of text, executableCode,
    codeExecutionResult and inlineData, a thought flag only beside a text,
    and no function call or response: a transcript of such parts stays one. *)
Theorem transcript_parts_well_tagged dataUrlMatch chatApi clock text image s0 :
  Forall (fun m => Forall wellTagged (parts m)) (messages s0) →
  Forall (fun m => Forall wellTagged (parts m))
    (messages (handleSendMessage dataUrlMatch chatApi clock text image s0).1).
Proof.
  intros H0. rewrite handleSendMessage_run. simpl.
  assert (Hu : Forall wellTagged (parts (userMessageOf dataUrlMatch clock text image)))
    by apply buildUserParts_wellTagged.
  assert (He : Forall wellTagged (parts (errorMessageOf clock))).
  { apply Forall_cons_2; [|done]. by repeat split; eauto. }
  assert (Hs : ∀ chunks, Forall wellTagged (parts (streamedMessageOf clock chunks)))
    by (intros chunks; by apply reduceParts_wellTagged).
  assert (Hbase : Forall (fun m => Forall wellTagged (parts m))
                    (messages s0 ++ [userMessageOf dataUrlMatch clock text image])).
  { apply Forall_app_2; [done|]. apply Forall_cons_2; [exact Hu | apply Forall_nil_2]. }
  destruct (answerOf dataUrlMatch chatApi text image s0) as [|chunks [|]].
  - apply Forall_app_2; [done|]. apply Forall_cons_2; [exact He | apply Forall_nil_2].
  - apply Forall_app_2; [done|]. apply Forall_cons_2; [exact (Hs chunks) | apply Forall_nil_2].
  - apply Forall_app_2; [apply Forall_app_2; [done|] |].
    + apply Forall_cons_2; [exact (Hs chunks) | apply Forall_nil_2].
    + apply Forall_cons_2; [exact He | apply Forall_nil_2].
Qed.

Lemma transcript_parts_well_tagged_witness :
  let multi := {| text := Some "see"; thought := Some (ThoughtBool true);
                  executableCode := Some {| language := Some "PYTHON"; code := Some "x" |};
                  codeExecutionResult := None; inlineData := None;
                  functionCall := Some (OpaqueObj 1); functionResponse := None |} in
  let api := fun (_ : nat) (_ : list Content) (_ : list Part) =>
               Streaming [chunkOf [multi]] Completed in
  Forall (fun m => Forall wellTagged (parts m)) (messages session0) ∧
  Forall (fun m => Forall wellTagged (parts m))
    (messages (handleSendMessage noDataUrl api clock0 "hi" None session0).1).
Proof.
  split.
  - apply Forall_nil_2.
  - apply (transcript_parts_well_tagged noDataUrl _ clock0 "hi" None session0).
    apply Forall_nil_2.
Defined.

(** ** [escapeHtml] *)

Lemma append_cons (c : ascii) (s t : string) : String c s +:+ t = String c (s +:+ t).
Proof. reflexivity. Qed.

Lemma replaceAllChar_app c r x y :
  replaceAllChar c r (x +:+ y) = replaceAllChar c r x +:+ replaceAllChar c r y.
Proof.
  induction x as [|a x IH]; [done|].
  rewrite append_cons. cbn [replaceAllChar]. rewrite IH.
  destruct (Ascii.eqb a c); [by rewrite append_assoc | done].
Qed.

(** The five replacements on one character. *)
Lemma replacements_single a :
  replaceAllChar "'"%char "&#039;"
    (replaceAllChar dquote "&quot;"
       (replaceAllChar ">"%char "&gt;"
          (replaceAllChar "<"%char "&lt;"
             (replaceAllChar "&"%char "&amp;" (String a EmptyString)))))
  = escapeChar a.
Proof.
  unfold escapeChar.
  destruct (Ascii.eqb a "&") eqn:E1; [apply Ascii.eqb_eq in E1 as ->; reflexivity|].
  destruct (Ascii.eqb a "<") eqn:E2; [apply Ascii.eqb_eq in E2 as ->; reflexivity|].
  destruct (Ascii.eqb a ">") eqn:E3; [apply Ascii.eqb_eq in E3 as ->; reflexivity|].
  destruct (Ascii.eqb a dquote) eqn:E4; [apply Ascii.eqb_eq in E4 as ->; reflexivity|].
  destruct (Ascii.eqb a "'") eqn:E5; [apply Ascii.eqb_eq in E5 as ->; reflexivity|].
  cbn [replaceAllChar]. rewrite E1. cbn [replaceAllChar]. rewrite E2.
  cbn [replaceAllChar]. rewrite E3. cbn [replaceAllChar]. rewrite E4.
  cbn [replaceAllChar]. by rewrite E5.
Qed.

Lemma replacements_each s :
  replaceAllChar "'"%char "&#039;"
    (replaceAllChar dquote "&quot;"
       (replaceAllChar ">"%char "&gt;"
          (replaceAllChar "<"%char "&lt;"
             (replaceAllChar "&"%char "&amp;" s))))
  = escapeEach s.
Proof.
  induction s as [|a s IH]; [done|].
  change (String a s) with (String a EmptyString +:+ s).
  rewrite !replaceAllChar_app, replacements_single, IH. done.
Qed.

Lemma escapeHtml_Some (s : string) : escapeHtml (Some s) = escapeEach s.
Proof.
  unfold escapeHtml. destruct (JS.truthy_str (Some s)) eqn:Ht; simpl.
  - apply replacements_each.
  - apply truthy_str_false in Ht as [?| [= ->]]; done.
Qed.

(** The five replacements done one after the other act as one
    simultaneous substitution on the argument (the empty string for a
    missing one): each character is replaced once, and the ampersand of an
    entity written by a replacement is never escaped again. *)
Theorem escapeHtml_simultaneous (unsafe : option string) :
  escapeHtml unsafe = escapeEach (JS.or_empty unsafe).
Proof. destruct unsafe as [s|]; [apply escapeHtml_Some | done]. Qed.

Lemma chars_app x y : chars (x +:+ y) = chars x ++ chars y.
Proof.
  induction x as [|a x IH]; [done|].
  rewrite append_cons. unfold chars in *. simpl. by rewrite IH.
Qed.

Lemma escapeChar_no_markup a :
  Forall (fun c => c ≠ "<"%char ∧ c ≠ ">"%char ∧ c ≠ dquote ∧ c ≠ "'"%char)
    (chars (escapeChar a)).
Proof.
  unfold escapeChar.
  destruct (Ascii.eqb a "&") eqn:E1; [by repeat constructor|].
  destruct (Ascii.eqb a "<") eqn:E2; [by repeat constructor|].
  destruct (Ascii.eqb a ">") eqn:E3; [by repeat constructor|].
  destruct (Ascii.eqb a dquote) eqn:E4; [by repeat constructor|].
  destruct (Ascii.eqb a "'") eqn:E5; [by repeat constructor|].
  apply Ascii.eqb_neq in E2, E3, E4, E5.
  by repeat constructor.
Qed.

(** Whatever the argument, the escaped text holds none of the characters
    that open or close a tag or an attribute value. *)
Theorem escapeHtml_no_markup (unsafe : option string) :
  Forall (fun c => c ≠ "<"%char ∧ c ≠ ">"%char ∧ c ≠ dquote ∧ c ≠ "'"%char)
    (chars (escapeHtml unsafe)).
Proof.
  destruct unsafe as [s|]; [|by constructor].
  rewrite escapeHtml_Some.
  induction s as [|a s IH]; [by constructor|].
  change (escapeEach (String a s)) with (escapeChar a +:+ escapeEach s).
  rewrite chars_app. apply Forall_app_2; [apply escapeChar_no_markup | exact IH].
Qed.

(** The codes of two characters are never a prefix of one another. *)
Lemma escapeChar_prefix_free a b X Y :
  escapeChar a +:+ X = escapeChar b +:+ Y → a = b ∧ X = Y.
Proof.
  unfold escapeChar.
  destruct (Ascii.eqb a "&") eqn:A1; [apply Ascii.eqb_eq in A1 as ->|];
  [|destruct (Ascii.eqb a "<") eqn:A2; [apply Ascii.eqb_eq in A2 as ->|];
  [|destruct (Ascii.eqb a ">") eqn:A3; [apply Ascii.eqb_eq in A3 as ->|];
  [|destruct (Ascii.eqb a dquote) eqn:A4; [apply Ascii.eqb_eq in A4 as ->|];
  [|destruct (Ascii.eqb a "'") eqn:A5; [apply Ascii.eqb_eq in A5 as ->|]]]]];
  (destruct (Ascii.eqb b "&") eqn:B1; [apply Ascii.eqb_eq in B1 as ->|];
   [|destruct (Ascii.eqb b "<") eqn:B2; [apply Ascii.eqb_eq in B2 as ->|];
   [|destruct (Ascii.eqb b ">") eqn:B3; [apply Ascii.eqb_eq in B3 as ->|];
   [|destruct (Ascii.eqb b dquote) eqn:B4; [apply Ascii.eqb_eq in B4 as ->|];
   [|destruct (Ascii.eqb b "'") eqn:B5; [apply Ascii.eqb_eq in B5 as ->|]]]]]);
  rewrite ?append_cons; intros H; simplify_eq; try done.
Qed.

Lemma escapeEach_injective s : ∀ t, escapeEach s = escapeEach t → s = t.
Proof.
  induction s as [|a s IH]; intros [|b t] H.
  - done.
  - change (escapeEach (String b t)) with (escapeChar b +:+ escapeEach t) in H.
    exfalso. unfold escapeChar in H.
    repeat (destruct (Ascii.eqb b _); [discriminate|]). discriminate.
  - change (escapeEach (String a s)) with (escapeChar a +:+ escapeEach s) in H.
    exfalso. unfold escapeChar in H.
    repeat (destruct (Ascii.eqb a _); [discriminate|]). discriminate.
  - change (escapeEach (String a s)) with (escapeChar a +:+ escapeEach s) in H.
    change (escapeEach (String b t)) with (escapeChar b +:+ escapeEach t) in H.
    apply escapeChar_prefix_free in H as [-> H]. f_equal. by apply IH.
Qed.

(** Two different texts never have the same escaped form, so the text is
    determined by what the export embeds. *)
Theorem escapeHtml_injective (s t : string) :
  escapeHtml (Some s) = escapeHtml (Some t) → s = t.
Proof. rewrite !escapeHtml_Some. apply escapeEach_injective. Qed.

Lemma escapeHtml_injective_witness :
  escapeHtml (Some "a < b && c") = escapeHtml (Some "a < b && c") ∧
  "a < b && c" = "a < b && c".
Proof.
  split; [reflexivity|].
  apply (escapeHtml_injective "a < b && c" "a < b && c"). reflexivity.
Defined.

(** ** The updater for one chunk *)

(** On a transcript that is not empty, the updater only ever rewrites the
    parts of the last message: ids, roles and timestamps of all messages
    (hence their number) and every message but the last are as before;
    when the last message is not the model message of this stream, or the
    chunk brings no parts, the transcript is returned as it was. *)
Theorem applyChunk_frame (mid : Z) (newParts : list Part) (prev : list ChatMessage) :
  prev ≠ [] →
  map msg_id (applyChunk mid newParts prev) = map msg_id prev ∧
  map role (applyChunk mid newParts prev) = map role prev ∧
  map timestamp (applyChunk mid newParts prev) = map timestamp prev ∧
  butLast (applyChunk mid newParts prev) = butLast prev ∧
  (∀ lastMsg, last prev = Some lastMsg → msg_id lastMsg ≠ mid →
     applyChunk mid newParts prev = prev) ∧
  applyChunk mid [] prev = prev.
Proof.
  intros Hprev. unfold applyChunk.
  destruct (last prev) as [lastMsg|] eqn:Hl; [|by apply last_None in Hl].
  destruct (last_Some_snoc _ _ Hl) as [init ->].
  rewrite length_app. simpl.
  replace (pred (length init + 1)) with (length init) by lia.
  rewrite take_app_length.
  destruct (Z.eqb_spec (msg_id lastMsg) mid) as [Heq|Hne]; simpl.
  - repeat split.
    + by rewrite !map_app.
    + by rewrite !map_app.
    + by rewrite !map_app.
    + by rewrite !butLast_snoc.
    + intros m [= <-] Hm. done.
    + by destruct lastMsg.
  - by repeat split.
Qed.

Lemma applyChunk_frame_witness :
  let user1 := {| msg_id := 1000; role := user; timestamp := 1000;
                  parts := [{| text := Some "hi"; thought := None;
                               executableCode := None; codeExecutionResult := None;
                               inlineData := None; functionCall := None;
                               functionResponse := None |}] |} in
  let model1 := {| msg_id := 1006; role := model; timestamp := 1005; parts := [] |} in
  let newParts := [{| text := Some "Hello"; thought := None;
                      executableCode := None; codeExecutionResult := None;
                      inlineData := None; functionCall := None;
                      functionResponse := None |}] in
  [user1; model1] ≠ [] ∧
  map msg_id (applyChunk 1006 newParts [user1; model1]) = [1000%Z; 1006%Z] ∧
  butLast (applyChunk 1006 newParts [user1; model1]) = [user1] ∧
  applyChunk 1007 newParts [user1; model1] = [user1; model1].
Proof.
  split; [discriminate|].
  pose proof (applyChunk_frame 1006
    [{| text := Some "Hello"; thought := None;
        executableCode := None; codeExecutionResult := None;
        inlineData := None; functionCall := None; functionResponse := None |}]
    [{| msg_id := 1000; role := user; timestamp := 1000;
        parts := [{| text := Some "hi"; thought := None;
                     executableCode := None; codeExecutionResult := None;
                     inlineData := None; functionCall := None;
                     functionResponse := None |}] |};
     {| msg_id := 1006; role := model; timestamp := 1005; parts := [] |}]
    ltac:(discriminate)) as (Hids & _ & _ & Hbut & _ & _).
  split; [exact Hids|]. split; [exact Hbut|]. reflexivity.
Defined.

(** ** A send, whatever the API answers *)

Section Sends.

Variable dataUrlMatch : string -> option (string * string).

(** Whatever the API answers, a send returns normally with the input
    surface enabled, has made exactly one request, and has only appended
    to the transcript: the messages from before stay in front, the user's
    message comes next, and one or two messages follow it. *)
Theorem send_appends_and_reenables chatApi clock text image s0 :
  let r := handleSendMessage dataUrlMatch chatApi clock text image s0 in
  r.2 = Returned tt ∧
  isLoading r.1 = false ∧
  requestsSent r.1 = S (requestsSent s0) ∧
  messages s0 `prefix_of` messages r.1 ∧
  messages r.1 !! length (messages s0)
    = Some (userMessageOf dataUrlMatch clock text image) ∧
  length (messages s0) + 2 ≤ length (messages r.1) ≤ length (messages s0) + 3.
Proof.
  simpl. rewrite handleSendMessage_run. simpl.
  split; [done|]. split; [done|]. split; [done|].
  destruct (answerOf dataUrlMatch chatApi text image s0) as [|chunks [|]].
  - split; [rewrite <- app_assoc; by apply prefix_app_r|].
    split; [|rewrite !length_app; simpl; lia].
    rewrite <- app_assoc, lookup_app_r by lia. by rewrite Nat.sub_diag.
  - split; [rewrite <- app_assoc; by apply prefix_app_r|].
    split; [|rewrite !length_app; simpl; lia].
    rewrite <- app_assoc, lookup_app_r by lia. by rewrite Nat.sub_diag.
  - split; [rewrite <- !app_assoc; by apply prefix_app_r|].
    split; [|rewrite !length_app; simpl; lia].
    rewrite <- !app_assoc, lookup_app_r by lia. by rewrite Nat.sub_diag.
Qed.

(** How the stream is cut into chunks does not matter: two answers that
    end the same way and bring the same parts in the same order leave the
    same session. *)
Theorem send_ignores_chunk_boundaries chatApi1 chatApi2 clock text image s0
    chunks1 chunks2 ending :
  answerOf dataUrlMatch chatApi1 text image s0 = Streaming chunks1 ending →
  answerOf dataUrlMatch chatApi2 text image s0 = Streaming chunks2 ending →
  concat (map chunkParts chunks1) = concat (map chunkParts chunks2) →
  handleSendMessage dataUrlMatch chatApi1 clock text image s0
  = handleSendMessage dataUrlMatch chatApi2 clock text image s0.
Proof.
  intros H1 H2 Hparts. rewrite !handleSendMessage_run. simpl.
  rewrite H1, H2. unfold streamedMessageOf. by rewrite Hparts.
Qed.

End Sends.

Lemma send_ignores_chunk_boundaries_witness :
  let api1 := fun (_ : nat) (_ : list Content) (_ : list Part) =>
                Streaming [chunkOf [textOnly "Hel"; textOnly "lo"]] Completed in
  let api2 := fun (_ : nat) (_ : list Content) (_ : list Part) =>
                Streaming [chunkOf [textOnly "Hel"]; {| candidates := None |};
                           chunkOf [textOnly "lo"]] Completed in
  (answerOf noDataUrl api1 "hi" None session0
     = Streaming [chunkOf [textOnly "Hel"; textOnly "lo"]] Completed ∧
   answerOf noDataUrl api2 "hi" None session0
     = Streaming [chunkOf [textOnly "Hel"]; {| candidates := None |};
                  chunkOf [textOnly "lo"]] Completed ∧
   concat (map chunkParts [chunkOf [textOnly "Hel"; textOnly "lo"]])
     = concat (map chunkParts [chunkOf [textOnly "Hel"]; {| candidates := None |};
                               chunkOf [textOnly "lo"]])) ∧
  handleSendMessage noDataUrl api1 clock0 "hi" None session0
  = handleSendMessage noDataUrl api2 clock0 "hi" None session0.
Proof.
  split.
  - repeat split; reflexivity.
  - apply (send_ignores_chunk_boundaries noDataUrl _ _ clock0 "hi" None session0
             [chunkOf [textOnly "Hel"; textOnly "lo"]]
             [chunkOf [textOnly "Hel"]; {| candidates := None |}; chunkOf [textOnly "lo"]]
             Completed); reflexivity.
Defined.

(** ** Message ids *)

(** The transcript a send leaves, as the transcript before it followed by
    the new messages. *)
Lemma handleSendMessage_appended dataUrlMatch chatApi clock text image s0 :
  ∃ new,
    messages (handleSendMessage dataUrlMatch chatApi clock text image s0).1
      = messages s0 ++ new ∧
    (map msg_id new = [now_user_id clock; (now_error_id clock + 2)%Z] ∨
     map msg_id new = [now_user_id clock; (now_model_id clock + 1)%Z] ∨
     map msg_id new = [now_user_id clock; (now_model_id clock + 1)%Z;
                       (now_error_id clock + 2)%Z]).
Proof.
  rewrite handleSendMessage_run. simpl.
  destruct (answerOf dataUrlMatch chatApi text image s0) as [|chunks [|]];
    eexists; (split; [rewrite <- ?app_assoc; reflexivity|]); simpl; auto.
Qed.

(** When the clock does not go back and every id in the transcript is
    older than the send, the ids of the transcript stay pairwise distinct
    after it: the user's message, the model message (one past its reading)
    and the error message (two past its reading) get three increasing
    ids. *)
Theorem message_ids_stay_distinct dataUrlMatch chatApi clock text image s0 :
  monotone clock →
  Forall (fun m => (msg_id m < now_user_id clock)%Z) (messages s0) →
  NoDup (map msg_id (messages s0)) →
  NoDup (map msg_id (messages (handleSendMessage dataUrlMatch chatApi clock text image s0).1)).
Proof.
  intros [Hum Hme] Hold Hnodup.
  destruct (handleSendMessage_appended dataUrlMatch chatApi clock text image s0)
    as (new & -> & Hids).
  rewrite map_app. apply NoDup_app. split; [done|].
  assert (Holder : ∀ x, x ∈ map msg_id (messages s0) → (x < now_user_id clock)%Z).
  { intros x (m & -> & Hm)%list_elem_of_fmap. by eapply Forall_forall in Hold. }
  split.
  - intros x Hx%Holder Hin.
    destruct Hids as [Hids | [Hids | Hids]]; rewrite Hids in Hin;
      repeat (apply elem_of_cons in Hin as [-> | Hin]; [lia|]);
      by apply elem_of_nil in Hin.
  - destruct Hids as [Hids | [Hids | Hids]]; rewrite Hids;
      repeat (apply NoDup_cons; split;
              [rewrite ?elem_of_cons, elem_of_nil; lia|]);
      apply NoDup_nil_2.
Qed.

Lemma message_ids_stay_distinct_witness :
  (monotone clock0 ∧
   Forall (fun m => (msg_id m < now_user_id clock0)%Z) (messages session0) ∧
   NoDup (map msg_id (messages session0))) ∧
  NoDup (map msg_id
           (messages (handleSendMessage noDataUrl abortingApi clock0 "hi" None session0).1)).
Proof.
  split.
  - split; [split; simpl; lia|]. split; [apply Forall_nil_2 | apply NoDup_nil_2].
  - apply (message_ids_stay_distinct noDataUrl abortingApi clock0 "hi" None session0).
    + split; simpl; lia.
    + apply Forall_nil_2.
    + apply NoDup_nil_2.
Defined.

(** ** The request sent to the API *)

Lemma withJpegFallback_inlinePart m1 m2 :
  withJpegFallback (inlinePart {| mimeType := Some m1; data := Some m2 |})
  = inlinePart {| mimeType := Some (if String.eqb m1 "application/octet-stream"
                                    then "image/jpeg" else m1);
                  data := Some m2 |}.
Proof.
  unfold withJpegFallback, JS.strict_eq. simpl.
  destruct (String.eqb_spec m1 "application/octet-stream") as [->|Hne].
  - by rewrite bool_decide_eq_true_2.
  - rewrite bool_decide_eq_false_2; [done | congruence].
Qed.

(** The parts sent as the new turn are the parts of the user's message in
    the transcript, except that inline data typed
    [application/octet-stream] is sent as [image/jpeg]; so the request is
    never empty and never carries that type, whatever the data URL matcher
    returns. *)
Theorem request_parts_of_user_parts dataUrlMatch (message : string) (image : option string) :
  requestParts dataUrlMatch message image
    = map withJpegFallback (buildUserParts dataUrlMatch message image) ∧
  requestParts dataUrlMatch message image ≠ [] ∧
  Forall (fun p => ∀ b, inlineData p = Some b →
                        mimeType b ≠ Some "application/octet-stream")
    (requestParts dataUrlMatch message image).
Proof.
  unfold requestParts, buildUserParts.
  destruct (JS.truthy_str (Some message)), (JS.truthy_str image);
    try destruct (dataUrlMatch (JS.or_empty image)) as [[m1 m2]|]; simpl;
    rewrite ?withJpegFallback_inlinePart;
    (split; [done|]); (split; [done|]);
    repeat (apply Forall_cons_2; [|]); try apply Forall_nil_2;
    simpl; intros b [= <-]; simpl;
    destruct (String.eqb_spec m1 "application/octet-stream"); congruence.
Qed.

(** ** Serializing twice *)

Lemma cleanPart_idempotent p : cleanPart (cleanPart p) = cleanPart p.
Proof.
  unfold cleanPart. simpl.
  destruct (JS.truthy_str (text p)) eqn:Ht; [by rewrite Ht | done].
Qed.

Lemma cleanParts_idempotent ps : cleanParts (cleanParts ps) = cleanParts ps.
Proof.
  rewrite !cleanParts_filter.
  induction ps as [|p ps IH]; [done|]. simpl.
  destruct (hasContent p) eqn:Hc; [|done].
  simpl. rewrite hasContent_cleanPart, Hc. simpl.
  by rewrite cleanPart_idempotent, IH.
Qed.

(** What is sent upstream for a message is a fixed point of the
    serializer: a message holding the parts that were sent for it
    (the one-space placeholder included) is sent with exactly those parts
    again. *)
Theorem history_entry_stable (msg : ChatMessage) :
  let sent := default [] (content_parts (historyEntry msg)) in
  historyEntry {| msg_id := msg_id msg; role := role msg; parts := sent;
                  timestamp := timestamp msg |}
  = historyEntry msg.
Proof.
  unfold historyEntry. simpl.
  destruct (cleanParts (parts msg)) as [|q qs] eqn:Hcp; simpl.
  - reflexivity.
  - rewrite <- Hcp, cleanParts_idempotent, Hcp. reflexivity.
Qed.

(** ** The MIME type given to a fetched example image *)

Lemma splitChar_nonempty sep s : splitChar sep s ≠ [].
Proof.
  destruct s as [|a s]; [done|]. simpl.
  destruct (Ascii.eqb a sep); [done|]. by destruct (splitChar sep s).
Qed.

(** Splitting around a separator: the pieces before it, then the pieces
    after it. *)
Lemma splitChar_app sep (t : string) : ∀ base,
  splitChar sep (base +:+ String sep t) = splitChar sep base ++ splitChar sep t.
Proof.
  induction base as [|a base IH].
  - change (EmptyString +:+ String sep t) with (String sep t).
    simpl. by rewrite Ascii.eqb_refl.
  - rewrite append_cons. simpl. rewrite IH.
    destruct (Ascii.eqb a sep); [done|].
    pose proof (splitChar_nonempty sep base) as Hne.
    by destruct (splitChar sep base).
Qed.

Lemma splitChar_plain sep (ext : string) :
  Forall (fun c => c ≠ sep) (chars ext) → splitChar sep ext = [ext].
Proof.
  induction ext as [|c ext IH]; intros Hext; [done|].
  apply Forall_cons in Hext as [Hc Hrest]. simpl.
  by rewrite (proj2 (Ascii.eqb_neq c sep) Hc), (IH Hrest).
Qed.

Lemma toLowerCase_chars s :
  chars (toLowerCase s) =
  map (fun c => if Nat.leb 65 (nat_of_ascii c) && Nat.leb (nat_of_ascii c) 90
                then ascii_of_nat (nat_of_ascii c + 32) else c) (chars s).
Proof.
  induction s as [|a s IH]; [done|].
  unfold chars in *. simpl. by rewrite IH.
Qed.

(** For an extension of ASCII characters without a dot: the extension
    looked at is what follows the last dot of the URL, with the letters
    A-Z lowered and every other character as it is; a URL that is only
    such a string is taken whole. *)
Theorem extension_after_last_dot (ext : string) :
  Forall (fun c => c ≠ "."%char ∧ nat_of_ascii c < 128) (chars ext) →
  ∃ lowered,
    (∀ base, extensionOf (base +:+ String "."%char ext) = Some lowered) ∧
    extensionOf ext = Some lowered ∧
    chars lowered =
      map (fun c => if Nat.leb 65 (nat_of_ascii c) && Nat.leb (nat_of_ascii c) 90
                    then ascii_of_nat (nat_of_ascii c + 32) else c) (chars ext).
Proof.
  intros Hext.
  assert (Hdot : Forall (fun c => c ≠ "."%char) (chars ext))
    by (eapply Forall_impl; [exact Hext | by intros c [? _]]).
  exists (toLowerCase ext). unfold extensionOf. split; [|split].
  - intros base. rewrite splitChar_app, last_app, (splitChar_plain _ _ Hdot). done.
  - by rewrite (splitChar_plain _ _ Hdot).
  - apply toLowerCase_chars.
Qed.

Lemma extension_after_last_dot_witness :
  Forall (fun c => c ≠ "."%char ∧ nat_of_ascii c < 128) (chars "JPG") ∧
  ∃ lowered,
    (∀ base, extensionOf (base +:+ String "."%char "JPG") = Some lowered) ∧
    extensionOf "JPG" = Some lowered ∧
    chars lowered =
      map (fun c => if Nat.leb 65 (nat_of_ascii c) && Nat.leb (nat_of_ascii c) 90
                    then ascii_of_nat (nat_of_ascii c + 32) else c) (chars "JPG").
Proof.
  split.
  - repeat constructor; (discriminate || (simpl; lia)).
  - apply (extension_after_last_dot "JPG").
    repeat constructor; (discriminate || (simpl; lia)).
Defined.

(** The type given to the new blob is never empty and never
    [application/octet-stream]: a type the blob came with is kept, and
    otherwise one of four image types is chosen. *)
Theorem fixed_mime_type_usable (blobType imageUrl : string) :
  let m := fixedMimeType blobType imageUrl in
  m ≠ "" ∧ m ≠ "application/octet-stream" ∧
  (m = blobType ∨ m ∈ ["image/jpeg"; "image/png"; "image/webp"; "image/heic"]) ∧
  (blobType ≠ "" → blobType ≠ "application/octet-stream" → m = blobType).
Proof.
  simpl. unfold fixedMimeType.
  destruct (JS.truthy_str (Some blobType)) eqn:Ht; simpl.
  - apply truthy_str_Some in Ht.
    destruct (String.eqb_spec blobType "application/octet-stream") as [->|Hne].
    + split; [|split; [|split]];
        repeat (match goal with |- context [if ?b then _ else _] => destruct b end);
        try done; try (right; rewrite !elem_of_cons; by auto).
    + by repeat split; auto.
  - apply truthy_str_false in Ht as [?|[= ->]]; [done|].
    split; [|split; [|split]];
      repeat (match goal with |- context [if ?b then _ else _] => destruct b end);
      try done; try (right; rewrite !elem_of_cons; by auto).
Qed.

(** ** Opening and closing a section, live and exported *)

(** After the same clicks the live section and the exported one are in
    the same state: both start closed and are open exactly after an odd
    number of clicks; the exported one then has the [open] class, its
    arrow turned, and the height the content had at the last click. *)
Theorem collapsibles_agree (scrollHeights : list nat) :
  let live := fold_left (fun isOpen _ => liveClick isOpen) scrollHeights liveInitial in
  let exported := fold_left toggleCollapse scrollHeights exportInitial in
  live = Nat.odd (length scrollHeights) ∧
  JS.truthy_obj (maxHeight exported) = live ∧
  openClass exported = live ∧
  arrowRotation exported =
    (if Nat.eqb (length scrollHeights) 0 then None
     else Some (if live then 90 else 0)) ∧
  maxHeight exported = (if live then last scrollHeights else None).
Proof.
  induction scrollHeights as [|h hs IH] using rev_ind; [done|].
  simpl in *. rewrite !fold_left_app, length_app, last_snoc. simpl.
  destruct IH as (Hl & Hm & Hc & Ha & Hh).
  set (live := fold_left (fun isOpen _ => liveClick isOpen) hs liveInitial) in *.
  set (ex := fold_left toggleCollapse hs exportInitial) in *.
  replace (length hs + 1) with (S (length hs)) by lia.
  rewrite Nat.odd_succ, <- Nat.negb_odd, <- Hl.
  unfold toggleCollapse, liveClick. rewrite Hm.
  destruct live; simpl; done.
Qed.

(** ** The title of a thought while it is streamed *)

Lemma spanNotStar_spec s : ∀ g r,
  spanNotStar s = (g, r) →
  s = g +:+ r ∧ Forall (fun c => c ≠ "*"%char) (chars g).
Proof.
  induction s as [|c s IH]; intros g r H; simpl in H.
  - by simplify_eq.
  - destruct (Ascii.eqb c "*") eqn:Hc.
    + by simplify_eq.
    + destruct (spanNotStar s) as [g' r'] eqn:Hs. simplify_eq.
      destruct (IH g' r eq_refl) as [-> Hg]. split; [done|].
      apply Forall_cons_2; [by apply Ascii.eqb_neq | done].
Qed.

(** A bold heading found at the start of [s]: not empty, without an
    asterisk, and standing between two pairs of asterisks. *)
Lemma boldAt_spec s g len :
  boldAt s = Some (g, len) →
  g ≠ "" ∧ Forall (fun c => c ≠ "*"%char) (chars g) ∧
  ∃ post, s = "**" +:+ g +:+ "**" +:+ post.
Proof.
  unfold boldAt. destruct s as [|a [|b rest]]; [done..|].
  destruct (Ascii.eqb a "*") eqn:Ha; [|done].
  destruct (Ascii.eqb b "*") eqn:Hb; [|done]. simpl.
  apply Ascii.eqb_eq in Ha as ->. apply Ascii.eqb_eq in Hb as ->.
  destruct (spanNotStar rest) as [g' r] eqn:Hs.
  destruct (spanNotStar_spec rest g' r Hs) as [-> Hg].
  destruct g' as [|c0 g0]; [done|].
  destruct r as [|c [|d post]]; [done..|].
  destruct (Ascii.eqb c "*") eqn:Hc; [|done].
  destruct (Ascii.eqb d "*") eqn:Hd; [|done]. simpl.
  apply Ascii.eqb_eq in Hc as ->. apply Ascii.eqb_eq in Hd as ->.
  intros [= <- <-]. split; [done|]. split; [done|]. by exists post.
Qed.

Lemma boldMatchesFrom_spec s : ∀ skip g,
  g ∈ boldMatchesFrom skip s →
  g ≠ "" ∧ Forall (fun c => c ≠ "*"%char) (chars g) ∧
  ∃ pre post, s = pre +:+ "**" +:+ g +:+ "**" +:+ post.
Proof.
  induction s as [|a s IH]; intros skip g Hin.
  - by apply elem_of_nil in Hin.
  - change (boldMatchesFrom skip (String a s))
      with (match skip with
            | S k => boldMatchesFrom k s
            | O => match boldAt (String a s) with
                   | Some (g, len) => g :: boldMatchesFrom (pred len) s
                   | None => boldMatchesFrom 0 s
                   end
            end) in Hin.
    assert (Hrest : ∀ k, g ∈ boldMatchesFrom k s →
              g ≠ "" ∧ Forall (fun c => c ≠ "*"%char) (chars g) ∧
              ∃ pre post, String a s = pre +:+ "**" +:+ g +:+ "**" +:+ post).
    { intros k Hk. destruct (IH k g Hk) as (Hne & Hstar & pre & post & ->).
      split; [done|]. split; [done|]. by exists (String a pre), post. }
    destruct skip as [|k]; [|by eapply Hrest].
    destruct (boldAt (String a s)) as [[g' len]|] eqn:Hb; [|by eapply Hrest].
    apply elem_of_cons in Hin as [-> | Hin]; [|by eapply Hrest].
    destruct (boldAt_spec _ _ _ Hb) as (Hne & Hstar & post & Heq).
    split; [done|]. split; [done|]. exists EmptyString, post. exact Heq.
Qed.

Lemma length_append (x y : string) :
  String.length (x +:+ y) = String.length x + String.length y.
Proof.
  induction x as [|a x IH]; [done|]. rewrite append_cons. simpl. by rewrite IH.
Qed.

Lemma dropChars_app (x y : string) : dropChars (String.length x) (x +:+ y) = y.
Proof.
  induction x as [|a x IH]; [by destruct y|]. rewrite append_cons. exact IH.
Qed.

(** Skipping characters of a match is resuming the search after them. *)
Lemma boldMatchesFrom_skip s : ∀ k,
  boldMatchesFrom k s = boldMatchesFrom 0 (dropChars k s).
Proof.
  induction s as [|a s IH]; intros [|k]; try reflexivity.
  change (boldMatchesFrom (S k) (String a s)) with (boldMatchesFrom k s).
  change (dropChars (S k) (String a s)) with (dropChars k s). apply IH.
Qed.

Lemma spanNotStar_heading (heading rest : string) :
  Forall (fun c => c ≠ "*"%char) (chars heading) →
  spanNotStar (heading +:+ String "*"%char rest) = (heading, String "*"%char rest).
Proof.
  induction heading as [|c h IH]; intros Hh.
  - reflexivity.
  - apply Forall_cons in Hh as [Hc Hrest]. rewrite append_cons. simpl.
    by rewrite (proj2 (Ascii.eqb_neq c "*") Hc), (IH Hrest).
Qed.

(** The search at a bold heading finds it and resumes after it. *)
Lemma boldMatches_at_heading (heading post : string) :
  heading ≠ "" → Forall (fun c => c ≠ "*"%char) (chars heading) →
  boldMatchesFrom 0 ("**" +:+ heading +:+ "**" +:+ post)
  = heading :: boldMatchesFrom 0 post.
Proof.
  intros Hne Hstar.
  assert (Hat : boldAt ("**" +:+ heading +:+ "**" +:+ post)
                = Some (heading, 4 + String.length heading)).
  { change ("**" +:+ heading +:+ "**" +:+ post)
      with (String "*"%char
              (String "*"%char (heading +:+ String "*"%char (String "*"%char post)))).
    unfold boldAt. change (Ascii.eqb "*" "*") with true. cbn [andb].
    rewrite (spanNotStar_heading heading (String "*"%char post) Hstar).
    by destruct heading. }
  change ("**" +:+ heading +:+ "**" +:+ post)
    with (String "*"%char (String "*"%char (heading +:+ "**" +:+ post))) in *.
  change (boldMatchesFrom 0 (String "*"%char (String "*"%char (heading +:+ "**" +:+ post))))
    with (match boldAt (String "*"%char (String "*"%char (heading +:+ "**" +:+ post))) with
          | Some (g, len) =>
              g :: boldMatchesFrom (pred len) (String "*"%char (heading +:+ "**" +:+ post))
          | None => boldMatchesFrom 0 (String "*"%char (heading +:+ "**" +:+ post))
          end).
  rewrite Hat. f_equal. rewrite boldMatchesFrom_skip. f_equal.
  change (pred (4 + String.length heading)) with (S (S (S (String.length heading)))).
  change (dropChars (S (S (S (String.length heading))))
            (String "*"%char (heading +:+ "**" +:+ post)))
    with (dropChars (S (S (String.length heading))) (heading +:+ "**" +:+ post)).
  replace (S (S (String.length heading))) with (String.length (heading +:+ "**"))
    by (rewrite length_append; simpl; lia).
  rewrite <- (append_assoc heading "**" post). apply dropChars_app.
Qed.

(** A text with a bold heading has a match. *)
Lemma boldMatches_complete s : hasHeading s → boldMatches s ≠ [].
Proof.
  intros (pre & heading & post & -> & Hne & Hstar). unfold boldMatches.
  induction pre as [|a pre IH].
  - change (EmptyString +:+ "**" +:+ heading +:+ "**" +:+ post)
      with ("**" +:+ heading +:+ "**" +:+ post).
    by rewrite boldMatches_at_heading.
  - rewrite append_cons.
    change (boldMatchesFrom 0 (String a (pre +:+ "**" +:+ heading +:+ "**" +:+ post)))
      with (match boldAt (String a (pre +:+ "**" +:+ heading +:+ "**" +:+ post)) with
            | Some (g, len) =>
                g :: boldMatchesFrom (pred len) (pre +:+ "**" +:+ heading +:+ "**" +:+ post)
            | None => boldMatchesFrom 0 (pre +:+ "**" +:+ heading +:+ "**" +:+ post)
            end).
    by destruct (boldAt _) as [[g len]|].
Qed.

(** The last match is a bold heading after which the text has no match. *)
Lemma boldMatches_last n : ∀ s heading,
  String.length s ≤ n →
  last (boldMatchesFrom 0 s) = Some heading →
  ∃ pre post, s = pre +:+ "**" +:+ heading +:+ "**" +:+ post ∧
              boldMatchesFrom 0 post = [].
Proof.
  induction n as [|n IH]; intros s heading Hlen Hlast.
  - destruct s; [done | simpl in Hlen; lia].
  - destruct s as [|a s]; [done|].
    change (boldMatchesFrom 0 (String a s))
      with (match boldAt (String a s) with
            | Some (g, len) => g :: boldMatchesFrom (pred len) s
            | None => boldMatchesFrom 0 s
            end) in Hlast.
    destruct (boldAt (String a s)) as [[g len]|] eqn:Hat.
    + destruct (boldAt_spec _ _ _ Hat) as (Hne & Hstar & post & Heq).
      assert (Hl : last (boldMatchesFrom 0 (String a s)) = Some heading).
      { change (boldMatchesFrom 0 (String a s))
          with (match boldAt (String a s) with
                | Some (g, len) => g :: boldMatchesFrom (pred len) s
                | None => boldMatchesFrom 0 s
                end). by rewrite Hat. }
      rewrite Heq, (boldMatches_at_heading g post Hne Hstar), last_cons in Hl.
      destruct (last (boldMatchesFrom 0 post)) as [y|] eqn:Hpost.
      * simplify_eq.
        destruct (IH post heading) as (pre' & post' & -> & Hnone); [|done|].
        { apply (f_equal String.length) in Heq. rewrite !length_append in Heq.
          simpl in Heq, Hlen. lia. }
        exists ("**" +:+ g +:+ "**" +:+ pre'), post'. split; [|done].
        rewrite Heq. by rewrite !append_assoc.
      * simplify_eq. exists EmptyString, post. split; [done|].
        by apply last_None.
    + destruct (IH s heading) as (pre' & post & -> & Hnone); [simpl in Hlen; lia|done|].
      by exists (String a pre'), post.
Qed.

(** A thought part is always drawn as a collapsible section whose body is
    the thought text. Its title is "Thought Process", unless it is the
    last part of a message being streamed and its text has a bold
    heading: then the title is "Thinking - " followed by a heading that is
    not empty, has no asterisk, stands in the text between two pairs of
    asterisks, and is followed by text with no further bold heading. *)
Theorem thought_title (isStreaming : bool) (partCount : nat) (p : Part) (index : nat) :
  thoughtFlag p = true →
  ∃ title,
    renderPart isStreaming partCount p index
      = Collapsible title Brain None (MarkdownBody (thoughtContent p)) ∧
    (isStreaming = false ∨ S index ≠ partCount → title = "Thought Process") ∧
    (isStreaming = true → S index = partCount →
       (¬ hasHeading (thoughtContent p) → title = "Thought Process") ∧
       (hasHeading (thoughtContent p) →
          ∃ heading pre post,
            title = "Thinking - " +:+ heading ∧
            heading ≠ "" ∧ Forall (fun c => c ≠ "*"%char) (chars heading) ∧
            thoughtContent p = pre +:+ "**" +:+ heading +:+ "**" +:+ post ∧
            ¬ hasHeading post)).
Proof.
  intros Hth. unfold renderPart. rewrite isThoughtLive_flag, Hth.
  eexists. split; [reflexivity|]. split.
  - intros [-> | Hne]; [done|].
    replace (Z.of_nat index =? Z.of_nat partCount - 1)%Z with false
      by (symmetry; apply Z.eqb_neq; lia).
    by rewrite Bool.andb_false_r.
  - intros -> Hlast.
    replace (Z.of_nat index =? Z.of_nat partCount - 1)%Z with true
      by (symmetry; apply Z.eqb_eq; lia).
    simpl. split.
    + intros Hno. destruct (last (boldMatches (thoughtContent p))) as [g|] eqn:Hl; [|done].
      exfalso. apply Hno. apply last_Some_elem_of in Hl.
      destruct (boldMatchesFrom_spec _ _ _ Hl) as (Hne & Hstar & pre & post & Heq).
      by exists pre, g, post.
    + intros Hhas. pose proof (boldMatches_complete _ Hhas) as Hsome.
      destruct (last (boldMatches (thoughtContent p))) as [g|] eqn:Hl;
        [|by apply last_None in Hl].
      pose proof Hl as Hin. apply last_Some_elem_of in Hin.
      destruct (boldMatchesFrom_spec _ _ _ Hin) as (Hne & Hstar & _).
      destruct (boldMatches_last _ _ g (le_n _) Hl) as (pre & post & Heq & Hnone).
      exists g, pre, post. repeat split; [done..|].
      intros Hpost. by apply boldMatches_complete in Hpost.
Qed.

Lemma thought_title_witness :
  let p := {| text := Some "ok **Plan** then **Check** it";
              thought := Some (ThoughtBool true); executableCode := None;
              codeExecutionResult := None; inlineData := None;
              functionCall := None; functionResponse := None |} in
  thoughtFlag p = true ∧
  ∃ title,
    renderPart true 1 p 0
      = Collapsible title Brain None (MarkdownBody (thoughtContent p)) ∧
    (true = false ∨ 1 ≠ 1 → title = "Thought Process") ∧
    (true = true → 1 = 1 →
       (¬ hasHeading (thoughtContent p) → title = "Thought Process") ∧
       (hasHeading (thoughtContent p) →
          ∃ heading pre post,
            title = "Thinking - " +:+ heading ∧
            heading ≠ "" ∧ Forall (fun c => c ≠ "*"%char) (chars heading) ∧
            thoughtContent p = pre +:+ "**" +:+ heading +:+ "**" +:+ post ∧
            ¬ hasHeading post)).
Proof.
  split; [reflexivity|].
  apply (thought_title true 1
           {| text := Some "ok **Plan** then **Check** it";
              thought := Some (ThoughtBool true); executableCode := None;
              codeExecutionResult := None; inlineData := None;
              functionCall := None; functionResponse := None |} 0).
  reflexivity.
Defined.

(** ** What the two renderers show, for every part *)

(** For any part, streamed or not: unless it is a thought with an empty
    text, the export draws something exactly when the live view does, and
    they draw the same kind unless the part has a non-empty text and
    inline data and nothing tested earlier, which the live view draws as
    text and the export as an image. *)
Theorem renderers_shown_kinds (isStreaming : bool) (partCount : nat)
    (p : Part) (index : nat) :
  let live := kindShown (renderPart isStreaming partCount p index) in
  let exported := kindShown (exportPart p) in
  (emptyThought p = true → live = Some KThought ∧ exported = None) ∧
  (emptyThought p = false → (exported = None ↔ live = None)) ∧
  (emptyThought p = false → textAndImage p = false → live = exported) ∧
  (textAndImage p = true → live = Some KText ∧ exported = Some KInlineData).
Proof.
  simpl. unfold renderPart, exportPart, textAndImage, emptyThought.
  rewrite isThoughtLive_flag.
  change (JS.truthy_thought (thought p)) with (thoughtFlag p).
  destruct (thoughtFlag p) eqn:Hth; simpl.
  - rewrite emptyThought_export by done. unfold emptyThought. rewrite Hth. simpl.
    destruct (String.eqb (thoughtContent p) ""); simpl; repeat split; done.
  - destruct (executableCode p); [by repeat split|].
    destruct (codeExecutionResult p); [by repeat split|]. simpl.
    destruct (JS.truthy_str (text p)), (inlineData p); by repeat split.
Qed.

(** ** C4: what the exported document shows, against the live view *)





(** HTML that is read as text between tags holds no opening angle
    bracket. *)
Lemma Decodes_no_tag html shown :
  Decodes "<"%char html shown → Forall (fun c => c ≠ "<"%char) (chars html).
Proof.
  induction 1 as [|c html shown Hamp Hstop _ IH| | | | |];
    [constructor | by apply Forall_cons_2 | idtac..];
    (rewrite chars_app; apply Forall_app_2; [|done];
     unfold chars; simpl; repeat (apply Forall_cons_2; [discriminate|]);
     apply Forall_nil_2).
Qed.








(** A code language with an angle bracket is written into the exported
    title as it is, and then the title is not read as text at all. *)
Lemma export_title_unescaped :
  let e := {| language := Some "<b>"; code := Some "x" |} in
  exportPart (codePart e)
    = CollapsibleHtml "Executable Code (<b>)" Code2 None (CodeBody "x") ∧
  ∀ shown, ¬ Decodes "<"%char "Executable Code (<b>)" shown.
Proof.
  split; [reflexivity|]. intros shown H. apply Decodes_no_tag in H.
  unfold chars in H. simpl in H.
  do 17 (apply Forall_cons in H as [_ H]). by apply Forall_cons in H as [H _].
Qed.
